(** * Image Weighted Collage: placement and relaxation engine

    A shallow embedding of [Image-WeightedCollage.py] and the properties its
    design document states about it.

    The script computes with Python [int]s and [float]s.  Integers are [Z].
    The floating-point operations are taken through the interface [Arith],
    so that every function below is written once, in the shape of the
    source, and is read at two instances:

    - [float_arith]: Rocq's primitive binary64 floats, which are the IEEE
      754 doubles of CPython; concrete layouts are evaluated here;
    - [Q_arith]: exact rationals, the rounding-free reading of the same
      arithmetic; numeric bounds are established here.

    Properties that only depend on the control and data flow of the script
    are proved for every instance of the interface.  The two instances can
    differ by one unit after [int]: on doubles [561 * (512 / 561)] is just
    under 512. *)

From Stdlib Require Import ZArith QArith Qround Qminmax Qabs Lia Lqa.
From Stdlib Require Import Floats.PrimFloat Floats.FloatOps Floats.SpecFloat.
From Stdlib Require Import Numbers.Cyclic.Int63.Uint63.
From Stdlib Require Import Strings.String Strings.Ascii DecimalString DecimalNat.
From Stdlib Require Import Sorting.Sorted.
From stdpp Require Import base option list relations.

Local Open Scope Z_scope.

(** ** Arithmetic of Python floats *)

Declare Scope F_scope.
Delimit Scope F_scope with F.

Class Arith (F : Type) := {
  of_Z : Z -> F;           (* the implicit int -> float conversion *)
  add : F -> F -> F;
  sub : F -> F -> F;
  mul : F -> F -> F;
  div : F -> F -> F;       (* [/] with a divisor known to be non-zero *)
  ltb : F -> F -> bool;
  leb : F -> F -> bool;
  trunc : F -> Z;          (* [int(x)]: truncation towards zero *)
}.

Infix "+" := add : F_scope.
Infix "-" := sub : F_scope.
Infix "*" := mul : F_scope.
Infix "/" := div : F_scope.
Infix "<?" := ltb : F_scope.
Infix "<=?" := leb : F_scope.

(** Python's two-argument [min] and [max] return the first argument unless
    the second one is strictly smaller (larger). *)
Definition pymin {F} `{Arith F} (a b : F) : F := if (b <? a)%F then b else a.
Definition pymax {F} `{Arith F} (a b : F) : F := if (a <? b)%F then b else a.

(** A decimal literal [n/d] of the source, e.g. [0.95] is [decimal 95 100].
    On doubles the correctly rounded quotient of two small integers is the
    double the literal denotes. *)
Definition decimal {F} `{Arith F} (n d : Z) : F := (of_Z n / of_Z d)%F.

(** *** Binary64 instance *)

Definition float_of_Z (z : Z) : float :=
  if z <? 0 then PrimFloat.opp (PrimFloat.of_uint63 (Uint63.of_Z (- z)))
  else PrimFloat.of_uint63 (Uint63.of_Z z).

(** [int(x)] on a finite double; CPython raises on infinities and NaN,
    which the layouts evaluated below never produce. *)
Definition float_trunc (f : float) : Z :=
  match Prim2SF f with
  | S754_finite s m e =>
      let a := if 0 <=? e then Z.shiftl (Z.pos m) e
               else Z.shiftr (Z.pos m) (- e) in
      if s then - a else a
  | _ => 0
  end.

#[global] Instance float_arith : Arith float := {|
  of_Z := float_of_Z;
  add := PrimFloat.add;
  sub := PrimFloat.sub;
  mul := PrimFloat.mul;
  div := PrimFloat.div;
  ltb := PrimFloat.ltb;
  leb := PrimFloat.leb;
  trunc := float_trunc;
|}.

(** *** Exact instance *)



(** ** Exceptions *)

Inductive exn : Set :=
  | FileNotFoundError      (* [os.listdir] on a missing directory *)
  | UnidentifiedImageError (* [Image.open] on an unreadable file *)
  | IndexError
  | ZeroDivisionError
  | OverflowError.

(** [IOError] is an alias of [OSError]; the first two exceptions are
    subclasses of it, the others are not. *)
Definition is_IOError (e : exn) : bool :=
  match e with
  | FileNotFoundError | UnidentifiedImageError => true
  | IndexError | ZeroDivisionError | OverflowError => false
  end.

Inductive result (A : Type) : Type :=
  | Ok (a : A)
  | Raise (e : exn).
Arguments Ok {A} a.
Arguments Raise {A} e.

Definition bind {A B} (r : result A) (k : A -> result B) : result B :=
  match r with
  | Ok a => k a
  | Raise e => Raise e
  end.

Notation "x <- r ;; k" := (bind r (fun x => k))
  (at level 100, r at next level, right associativity).

Fixpoint mapM {A B} (f : A -> result B) (l : list A) : result (list B) :=
  match l with
  | [] => Ok []
  | a :: l' => b <- f a ;; bs <- mapM f l' ;; Ok (b :: bs)
  end.

(** [a / b] on two ints: true division, raising on a zero divisor. *)
Definition truediv {F} `{Arith F} (a b : Z) : result F :=
  if b =? 0 then Raise ZeroDivisionError else Ok (of_Z a / of_Z b)%F.

(** ** Parameters and nodes *)

Inductive sort_type : Set := NONE | AREA | WIDTH | HEIGHT | RANDOM.

Record Config {F : Type} := {
  TARGET_SIZE : Z * Z;
  MARGIN_DISTANCE : Z;
  INITIAL_RADIUS : Z;
  MAX_INITIAL_DIM : Z;
  SORT_TYPE : sort_type;
  RANDOM_COUNT : Z;
  SCALE_FACTOR : F;
  MAX_SCALE_DOWN : F;
  MAX_RESCALE_ATTEMPTS : Z;
  MAX_MOVEMENT_PER_ITER : F;
  REPULSION_STRENGTH : F;
  ATTRACTION_RATE : F * F;
  ATTRACTION_WEIGHT : F;
  RELAXATION_ITERATIONS : Z;
}.
Arguments Config F : clear implicits.

(** The values written in the script. *)
Definition default_config {F} `{Arith F} : Config F := {|
  TARGET_SIZE := (4096, 4096);
  MARGIN_DISTANCE := 8;
  INITIAL_RADIUS := 512;
  MAX_INITIAL_DIM := 512;
  SORT_TYPE := RANDOM;
  RANDOM_COUNT := 25;
  SCALE_FACTOR := decimal 95 100;
  MAX_SCALE_DOWN := decimal 75 100;
  MAX_RESCALE_ATTEMPTS := 16;
  MAX_MOVEMENT_PER_ITER := of_Z 128;
  REPULSION_STRENGTH := of_Z 10;
  ATTRACTION_RATE := (decimal 1 10000, decimal 1 1000);
  ATTRACTION_WEIGHT := decimal 1 10000;
  RELAXATION_ITERATIONS := 4096;
|}.

(** The dictionary built by [load_images].  [image] is the handle of the
    decoded picture (its path).  The keys ['x'] and ['y'] only exist once
    [place_initial] has run; nothing reads them earlier, and the record
    holds zero until then. *)
Record node {F : Type} := {
  image : string;
  orig_width : Z;
  orig_height : Z;
  width : Z;
  height : Z;
  scale : F;
  fixed : bool;
  x : F;
  y : F;
}.
Arguments node F : clear implicits.

Definition set_size {F} (n : node F) (s : F) (w h : Z) : node F :=
  {| image := image n; orig_width := orig_width n; orig_height := orig_height n;
     width := w; height := h; scale := s; fixed := fixed n;
     x := x n; y := y n |}.

Definition set_pos {F} (n : node F) (px py : F) : node F :=
  {| image := image n; orig_width := orig_width n; orig_height := orig_height n;
     width := width n; height := height n; scale := scale n; fixed := fixed n;
     x := px; y := py |}.

Definition set_fixed {F} (n : node F) (b : bool) : node F :=
  {| image := image n; orig_width := orig_width n; orig_height := orig_height n;
     width := width n; height := height n; scale := scale n; fixed := b;
     x := x n; y := y n |}.

(** ** The functions of the script *)

Section Functions.
Context {F : Type} `{Arith F}.
Variable cfg : Config F.

(** [math.sqrt], [math.cos], [math.sin] and [math.pi]. *)
Variable sqrt : F -> F.
Variables cos sin : F -> F.
Variable pi : F.

(** [CENTER = (TARGET_SIZE[0] // 2, TARGET_SIZE[1] // 2)] *)
Definition CENTER : Z * Z :=
  (fst (TARGET_SIZE cfg) / 2, snd (TARGET_SIZE cfg) / 2).

(** [load_images]: one dictionary per decoded picture.  [open_image] is
    [Image.open(path).convert("RGBA").size]. *)
Definition new_node (path : string) (w h : Z) : node F :=
  {| image := path; orig_width := w; orig_height := h;
     width := w; height := h; scale := of_Z 1; fixed := false;
     x := of_Z 0; y := of_Z 0 |}.

Definition load_images (open_image : string -> result (Z * Z))
    (image_paths : list string) : result (list (node F)) :=
  mapM (fun path => wh <- open_image path ;;
                    Ok (new_node path (fst wh) (snd wh))) image_paths.

(** [initial_rescale], the body of the loop and the loop. *)
Definition initial_rescale_node (n : node F) : result (node F) :=
  if (MAX_INITIAL_DIM cfg <? width n) || (MAX_INITIAL_DIM cfg <? height n)
  then
    scale_w <- truediv (MAX_INITIAL_DIM cfg) (width n) ;;
    scale_h <- truediv (MAX_INITIAL_DIM cfg) (height n) ;;
    let s := pymin scale_w scale_h in
    Ok (set_size n s (trunc (of_Z (orig_width n) * s)%F)
                     (trunc (of_Z (orig_height n) * s)%F))
  else Ok n.

Definition initial_rescale (nodes : list (node F)) : result (list (node F)) :=
  mapM initial_rescale_node nodes.

(** [sorted(nodes, key=..., reverse=True)]: descending, and stable: nodes
    with equal keys keep their order. *)
Fixpoint insert_desc (key : node F -> Z) (n : node F) (l : list (node F))
    : list (node F) :=
  match l with
  | [] => [n]
  | m :: l' => if key m <=? key n then n :: l
               else m :: insert_desc key n l'
  end.

Definition sorted_desc (key : node F -> Z) (nodes : list (node F))
    : list (node F) :=
  fold_right (insert_desc key) [] nodes.

Definition sort_by_area := sorted_desc (fun n => width n * height n).
Definition sort_by_width := sorted_desc (fun n => width n).
Definition sort_by_height := sorted_desc (fun n => height n).

(** [place_initial]; [nodes[0]] raises on an empty list. *)
Definition angle_step (num : nat) : F :=
  ((of_Z 6 * pi) / of_Z (Z.max 1 (Z.of_nat num - 1)))%F.

Definition place_on_circle (num : nat) (k : nat) (n : node F) : node F :=
  let i := Z.of_nat (S k) in
  let angle := (angle_step num * of_Z (i - 1))%F in
  set_pos n (of_Z (fst CENTER) + of_Z (INITIAL_RADIUS cfg) * cos angle)%F
            (of_Z (snd CENTER) + of_Z (INITIAL_RADIUS cfg) * sin angle)%F.

Definition place_initial (nodes : list (node F)) : result (list (node F)) :=
  match nodes with
  | [] => Raise IndexError
  | n0 :: others =>
      let n0' :=
        set_fixed (set_pos n0 (of_Z (fst CENTER)) (of_Z (snd CENTER))) true in
      Ok (n0' :: imap (place_on_circle (length nodes)) others)
  end.

(** [bounding_box] and [boxes_overlap] (always called with the default
    margin). *)
Definition bounding_box (n : node F) : F * F * F * F :=
  ((x n - of_Z (width n) / of_Z 2)%F,
   (y n - of_Z (height n) / of_Z 2)%F,
   (x n + of_Z (width n) / of_Z 2)%F,
   (y n + of_Z (height n) / of_Z 2)%F).

Definition boxes_overlap (b1 b2 : F * F * F * F) : bool :=
  let '(b1x1, b1y1, b1x2, b1y2) := b1 in
  let '(b2x1, b2y1, b2x2, b2y2) := b2 in
  let margin := of_Z (MARGIN_DISTANCE cfg) in
  negb ((b1x2 + margin <? b2x1)%F || (b2x2 + margin <? b1x1)%F ||
        (b1y2 + margin <? b2y1)%F || (b2y2 + margin <? b1y1)%F).

(** [apply_forces].  [repulse] is one turn of the inner loop, [pushed]
    the body of the outer loop for a node that is not fixed, reading the
    other nodes from the list as it stands. *)
Definition repulse (i : nat) (n1 : node F) (force : F * F) (jn2 : nat * node F)
    : F * F :=
  let '(j, n2) := jn2 in
  if Nat.eqb i j then force
  else if boxes_overlap (bounding_box n1) (bounding_box n2) then
    let dx := (x n1 - x n2)%F in
    let dy := (y n1 - y n2)%F in
    let dist := (sqrt (dx * dx + dy * dy) + decimal 1 10)%F in
    let factor := (REPULSION_STRENGTH cfg * (of_Z 1 / dist))%F in
    ((fst force + dx * factor)%F, (snd force + dy * factor)%F)
  else force.

Definition enumerate {A} (l : list A) : list (nat * A) :=
  zip (seq 0 (length l)) l.

Definition pushed (nodes : list (node F)) (i : nat) (n1 : node F) : node F :=
  let '(b1x1, b1y1, b1x2, b1y2) := bounding_box n1 in
  let s := (((b1x2 - b1x1) * (b1y2 - b1y1)) / of_Z (fst (TARGET_SIZE cfg)))%F in
  let '(force_x, force_y) :=
    fold_left (repulse i n1) (enumerate nodes) (of_Z 0, of_Z 0) in
  let dx_center := (of_Z (fst CENTER) - x n1)%F in
  let dy_center := (of_Z (snd CENTER) - y n1)%F in
  let force_x :=
    (force_x + dx_center * (fst (ATTRACTION_RATE cfg) + s * ATTRACTION_WEIGHT cfg))%F in
  let force_y :=
    (force_y + dy_center * (snd (ATTRACTION_RATE cfg) + s * ATTRACTION_WEIGHT cfg))%F in
  let dist_move := sqrt (force_x * force_x + force_y * force_y)%F in
  let '(force_x, force_y) :=
    if (MAX_MOVEMENT_PER_ITER cfg <? dist_move)%F then
      let s := (MAX_MOVEMENT_PER_ITER cfg / dist_move)%F in
      ((force_x * s)%F, (force_y * s)%F)
    else (force_x, force_y) in
  set_pos n1 (x n1 + force_x)%F (y n1 + force_y)%F.

Definition apply_forces_at (nodes : list (node F)) (i : nat) : list (node F) :=
  match nodes !! i with
  | Some n1 => if fixed n1 then nodes else <[i := pushed nodes i n1]> nodes
  | None => nodes
  end.

Definition apply_forces (nodes : list (node F)) : list (node F) :=
  fold_left apply_forces_at (seq 0 (length nodes)) nodes.

(** [attempt_rescale].  [shrink] is the update of the node picked as
    [smaller] (nothing when the new scale is under the floor);
    [rescale_pair] is the body of the inner loop for [i < j], reading both
    dictionaries as they stand when the pair is reached. *)
Definition shrink (smaller : node F) : option (node F) :=
  let new_scale := (scale smaller * SCALE_FACTOR cfg)%F in
  if (MAX_SCALE_DOWN cfg <=? new_scale)%F then
    Some (set_size smaller new_scale
            (trunc (of_Z (orig_width smaller) * new_scale)%F)
            (trunc (of_Z (orig_height smaller) * new_scale)%F))
  else None.

Definition rescale_pair (st : list (node F) * bool) (i j : nat)
    : list (node F) * bool :=
  match fst st !! i, fst st !! j with
  | Some n1, Some n2 =>
      if boxes_overlap (bounding_box n1) (bounding_box n2) then
        let first := width n1 * height n1 <? width n2 * height n2 in
        match shrink (if first then n1 else n2) with
        | Some smaller => (<[(if first then i else j) := smaller]> (fst st), true)
        | None => st
        end
      else st
  | _, _ => st
  end.

Definition rescale_row (num : nat) (st : list (node F) * bool) (i : nat)
    : list (node F) * bool :=
  fold_left (fun st j => if (j <=? i)%nat then st else rescale_pair st i j)
            (seq 0 num) st.

Definition attempt_rescale (nodes : list (node F)) : list (node F) * bool :=
  fold_left (rescale_row (length nodes)) (seq 0 (length nodes)) (nodes, false).

(** [run_relaxation] *)
Fixpoint rescale_attempts (attempts : nat) (nodes : list (node F))
    : list (node F) :=
  match attempts with
  | O => nodes
  | S attempts' =>
      let '(nodes', changed) := attempt_rescale nodes in
      if changed then rescale_attempts attempts' nodes' else nodes'
  end.

Definition relax (nodes : list (node F)) (iteration : nat) : list (node F) :=
  let nodes := apply_forces nodes in
  if Z.of_nat iteration mod 20 =? 0
  then rescale_attempts (Z.to_nat (MAX_RESCALE_ATTEMPTS cfg)) nodes
  else nodes.

Definition run_relaxation (nodes : list (node F)) : list (node F) :=
  fold_left relax (seq 0 (Z.to_nat (RELAXATION_ITERATIONS cfg))) nodes.

(** [compose_final_image].  The running minima and maxima start at the
    infinities, here [None]; on an empty list [int(max_x - min_x)] is
    [int(-inf)] and raises.  The picture is represented by its size and by
    the list of pasted images with their sizes and offsets. *)
Definition extend (acc : option (F * F * F * F)) (n : node F)
    : option (F * F * F * F) :=
  let '(bx1, by1, bx2, by2) := bounding_box n in
  match acc with
  | None => Some (bx1, by1, bx2, by2)
  | Some (min_x, min_y, max_x, max_y) =>
      Some (pymin min_x bx1, pymin min_y by1, pymax max_x bx2, pymax max_y by2)
  end.

Record canvas := {
  size : Z * Z;
  pasted : list (string * (Z * Z) * (Z * Z));
}.

Definition compose_final_image (nodes : list (node F)) : result canvas :=
  match fold_left extend nodes None with
  | None => Raise OverflowError
  | Some (min_x, min_y, max_x, max_y) =>
      let w := trunc (max_x - min_x)%F in
      let h := trunc (max_y - min_y)%F in
      let paste n :=
        (image n, (width n, height n),
         (trunc (x n - of_Z (width n) / of_Z 2 - min_x)%F,
          trunc (y n - of_Z (height n) / of_Z 2 - min_y)%F)) in
      scale_w <- truediv (fst (TARGET_SIZE cfg)) w ;;
      scale_h <- truediv (snd (TARGET_SIZE cfg)) h ;;
      let scale_to_target := pymin scale_w scale_h in
      if (scale_to_target <? of_Z 1)%F then
        Ok {| size := (trunc (of_Z w * scale_to_target)%F,
                       trunc (of_Z h * scale_to_target)%F);
              pasted := map paste nodes |}
      else Ok {| size := (w, h); pasted := map paste nodes |}
  end.

(** The main block.  The outside world is the directory listing, the image
    decoder, the draw of [random.sample] in each trial and the writing of
    the result. *)
Record World := {
  listdir : result (list string);
  open_image : string -> result (Z * Z);
  sample : nat -> list (node F) -> list (node F);
  save : string -> canvas -> result unit;
}.

Definition INPUT_DIRECTORY : string := "collage".
Definition OUTPUT_FILE : string := "collage-#.png".

Definition lower_ascii (c : ascii) : ascii :=
  let k := nat_of_ascii c in
  if ((65 <=? k) && (k <=? 90))%nat then ascii_of_nat (k + 32) else c.

Fixpoint lower (s : string) : string :=
  match s with
  | EmptyString => EmptyString
  | String c s' => String (lower_ascii c) (lower s')
  end.

Definition endswith (s suffix : string) : bool :=
  let ls := String.length s in
  let lx := String.length suffix in
  (lx <=? ls)%nat && String.eqb (substring (ls - lx) lx s) suffix.

Definition is_image_name (f : string) : bool :=
  let f := lower f in
  endswith f ".png" || endswith f ".jpg" || endswith f ".jpeg".

Fixpoint replace_pound (s new : string) : string :=
  match s with
  | EmptyString => EmptyString
  | String c s' =>
      if Ascii.eqb c "#" then (new ++ replace_pound s' new)%string
      else String c (replace_pound s' new)
  end.

Definition sort_name (t : sort_type) : string :=
  match t with
  | NONE => "none" | AREA => "area" | WIDTH => "width"
  | HEIGHT => "height" | RANDOM => "random"
  end.

Definition output_name (count : Z) (trial : nat) : string :=
  if 1 <? count then
    replace_pound OUTPUT_FILE
      (sort_name (SORT_TYPE cfg) ++ NilEmpty.string_of_uint (Nat.to_uint (S trial)))
  else replace_pound OUTPUT_FILE (sort_name (SORT_TYPE cfg)).

Definition reorder (world : World) (trial : nat) (nodes : list (node F))
    : list (node F) :=
  match SORT_TYPE cfg with
  | AREA => sort_by_area nodes
  | WIDTH => sort_by_width nodes
  | HEIGHT => sort_by_height nodes
  | RANDOM => sample world trial nodes
  | NONE => nodes
  end.

(** One turn of the loop over the trials: the saved file, or the exception
    that ends the run. *)
Definition generate (world : World) (image_paths : list string) (count : Z)
    (trial : nat) : result (string * canvas) :=
  let output := output_name count trial in
  nodes <- load_images (open_image world) image_paths ;;
  nodes <- initial_rescale nodes ;;
  let nodes := reorder world trial nodes in
  nodes <- place_initial nodes ;;
  let nodes := run_relaxation nodes in
  final_image <- compose_final_image nodes ;;
  _ <- save world output final_image ;;
  Ok (output, final_image).

Fixpoint trials (world : World) (image_paths : list string) (count : Z)
    (todo : list nat) (saved : list (string * canvas))
    : list (string * canvas) * result unit :=
  match todo with
  | [] => (saved, Ok tt)
  | trial :: todo' =>
      match generate world image_paths count trial with
      | Ok out => trials world image_paths count todo' (saved ++ [out])
      | Raise e => (saved, Raise e)
      end
  end.

(** The files written, in order, and how the run ended. *)
Definition main (world : World) : list (string * canvas) * result unit :=
  match listdir world with
  | Raise e => ([], Raise e)
  | Ok names =>
      let image_paths :=
        map (fun f => (INPUT_DIRECTORY ++ "/" ++ f)%string)
            (filter (fun f => is_image_name f = true) names) in
      let count :=
        match SORT_TYPE cfg with RANDOM => RANDOM_COUNT cfg | _ => 1 end in
      trials world image_paths count (seq 0 (Z.to_nat count)) []
  end.
End Functions.

Arguments World F : clear implicits.

(** ** Notions used in the statements *)

Section Notions.
Context {F : Type} `{Arith F}.
Variable cfg : Config F.
Variable sqrt : F -> F.
Variables cos sin : F -> F.
Variable pi : F.

(** One update of the rescaler: the node at some index is replaced by its
    shrunk version.  A sweep is a sequence of such updates. *)
Inductive shrink_step : list (node F) -> list (node F) -> Prop :=
  | shrink_at l k n n' :
      l !! k = Some n -> shrink cfg n = Some n' ->
      shrink_step l (<[k := n']> l).

(** A node that is fixed at a given place. *)
Definition pinned (px py : F) (k : nat) (nodes : list (node F)) : Prop :=
  exists n, nodes !! k = Some n /\ fixed n = true /\ x n = px /\ y n = py.

(** The integer [z] is a nearest integer of [v]: it is at distance at most
    one half. *)
Definition nearest_int (z : Z) (v : F) : bool :=
  (of_Z (2 * z - 1) <=? of_Z 2 * v)%F && (of_Z 2 * v <=? of_Z (2 * z + 1))%F.

(** The sizes of a node are its original sizes times its scale, cut to an
    integer the way [int] does. *)
Definition truncated (n : node F) : Prop :=
  width n = trunc (of_Z (orig_width n) * scale n)%F /\
  height n = trunc (of_Z (orig_height n) * scale n)%F.

(** A node as [load_images] makes it, from a picture that has pixels. *)
Definition as_loaded (n : node F) : Prop :=
  width n = orig_width n /\ height n = orig_height n /\ scale n = of_Z 1 /\
  0 < orig_width n /\ 0 < orig_height n.

(** The steps a layout goes through in a run: the downscaler, once, on
    the nodes as loaded; the ordering; the placement; the sweeps of the
    solver and of the rescaler. *)
Inductive run_step : list (node F) -> list (node F) -> Prop :=
  | run_downscale l l' :
      Forall as_loaded l -> initial_rescale cfg l = Ok l' -> run_step l l'
  | run_reorder l l' : l ≡ₚ l' -> run_step l l'
  | run_place l l' : place_initial cfg cos sin pi l = Ok l' -> run_step l l'
  | run_forces l : run_step l (apply_forces cfg sqrt l)
  | run_rescale l : run_step l (fst (attempt_rescale cfg l)).

(** Two states of the same picture: everything but the position and the
    anchor flag is the same. *)
Definition same_picture (n n' : node F) : Prop :=
  image n' = image n /\ orig_width n' = orig_width n /\
  orig_height n' = orig_height n /\ width n' = width n /\
  height n' = height n /\ scale n' = scale n.

(** The pairs [(i, j)] with [i < j < num], in the order of the two loops
    of [attempt_rescale]. *)
Definition unordered_pairs (num : nat) : list (nat * nat) :=
  flat_map (fun i => map (pair i) (seq (S i) (num - S i))) (seq 0 num).

Definition rescale_pairs (pairs : list (nat * nat)) (st : list (node F) * bool)
    : list (node F) * bool :=
  fold_left (fun st ij => rescale_pair cfg st (fst ij) (snd ij)) pairs st.

(** The solver with a barrier, as the design document describes it: every
    force is computed from the positions at the start of the sweep and the
    new positions are written afterwards. *)
Definition apply_forces_deferred (nodes : list (node F)) : list (node F) :=
  imap (fun i n1 => if fixed n1 then n1 else pushed cfg sqrt nodes i n1) nodes.

(** The rescaler evaluated against a snapshot: overlap and the smaller
    node of a pair are decided on the sizes at the start of the sweep. *)
Definition rescale_pair_snapshot (snapshot : list (node F))
    (st : list (node F) * bool) (ij : nat * nat) : list (node F) * bool :=
  match snapshot !! fst ij, snapshot !! snd ij with
  | Some s1, Some s2 =>
      if boxes_overlap cfg (bounding_box s1) (bounding_box s2) then
        let k := if width s1 * height s1 <? width s2 * height s2
                 then fst ij else snd ij in
        match fst st !! k with
        | Some current =>
            match shrink cfg current with
            | Some smaller => (<[k := smaller]> (fst st), true)
            | None => st
            end
        | None => st
        end
      else st
  | _, _ => st
  end.

Definition attempt_rescale_snapshot (nodes : list (node F))
    : list (node F) * bool :=
  fold_left (rescale_pair_snapshot nodes) (unordered_pairs (length nodes))
            (nodes, false).
End Notions.

(** ** Notions on exact rationals *)

Section ExactNotions.
Variable cfg : Config Q.









End ExactNotions.

(** ** Layouts on doubles *)

(** The parameters of the script, on doubles and on exact rationals. *)
Definition float_config : Config float := default_config.

Definition placed_node (w h : Z) (px py : float) (anchor : bool) : node float :=
  {| image := "img"; orig_width := w; orig_height := h;
     width := w; height := h; scale := 1%float; fixed := anchor;
     x := px; y := py |}.

(** An anchor at the center and two nodes on its right: the second overlaps
    the anchor and is exactly [MARGIN_DISTANCE] away from the third. *)
Definition three_in_a_row : list (node float) :=
  [ placed_node 100 100 2048 2048 true;
    placed_node 100 100 2100 2048 false;
    placed_node 100 100 2208 2048 false ].

(** Three squares of side 100 on a line: the first two touch, the third is
    exactly [MARGIN_DISTANCE] away from the second. *)
Definition chain : list (node float) :=
  [ placed_node 100 100 0 0 false;
    placed_node 100 100 100 0 false;
    placed_node 100 100 208 0 false ].

(** ** Inputs used where a statement is instantiated *)

(** Stand-ins for [math.sqrt], [math.cos], [math.sin] and [math.pi] on
    exact rationals, where these have no exact value: a few Newton steps
    and the first terms of the power series.  No statement below depends
    on their values. *)
Section StandIns.
Context {F : Type} `{Arith F}.


Definition series_cos (a : F) : F :=
  let a2 := (a * a)%F in
  (of_Z 1 - a2 / of_Z 2 + a2 * a2 / of_Z 24)%F.

Definition series_sin (a : F) : F :=
  let a2 := (a * a)%F in
  (a - a * a2 / of_Z 6 + a * a2 * a2 / of_Z 120)%F.

Definition decimal_pi : F := decimal 3141592653589793 1000000000000000.
End StandIns.

(** A directory that does not exist, and one that holds no picture. *)
Definition missing_directory : World float :=
  {| listdir := Raise FileNotFoundError;
     open_image := fun _ => Raise UnidentifiedImageError;
     sample := fun _ nodes => nodes;
     save := fun _ _ => Ok tt |}.

Definition empty_directory : World float :=
  {| listdir := Ok ["notes.txt"; "README"]%string;
     open_image := fun _ => Raise UnidentifiedImageError;
     sample := fun _ nodes => nodes;
     save := fun _ _ => Ok tt |}.

(** The parameters of the script with a shorter run: 3 trials of 60
    iterations. *)
Definition short_config : Config float :=
  {| TARGET_SIZE := TARGET_SIZE float_config;
     MARGIN_DISTANCE := MARGIN_DISTANCE float_config;
     INITIAL_RADIUS := INITIAL_RADIUS float_config;
     MAX_INITIAL_DIM := MAX_INITIAL_DIM float_config;
     SORT_TYPE := SORT_TYPE float_config;
     RANDOM_COUNT := 3;
     SCALE_FACTOR := SCALE_FACTOR float_config;
     MAX_SCALE_DOWN := MAX_SCALE_DOWN float_config;
     MAX_RESCALE_ATTEMPTS := MAX_RESCALE_ATTEMPTS float_config;
     MAX_MOVEMENT_PER_ITER := MAX_MOVEMENT_PER_ITER float_config;
     REPULSION_STRENGTH := REPULSION_STRENGTH float_config;
     ATTRACTION_RATE := ATTRACTION_RATE float_config;
     ATTRACTION_WEIGHT := ATTRACTION_WEIGHT float_config;
     RELAXATION_ITERATIONS := 60 |}.

(** A directory with one 800 by 600 picture and a file that is not a
    picture. *)
Definition one_picture : World float :=
  {| listdir := Ok ["wide.PNG"; "notes.txt"]%string;
     open_image := fun _ => Ok (800, 600);
     sample := fun _ nodes => nodes;
     save := fun _ _ => Ok tt |}.

(** The sizes the downscaler gives a [w] by [h] picture, on doubles. *)
Definition downscaled_sizes (w h : Z) : Z * Z :=
  match initial_rescale float_config [new_node "img" w h] with
  | Ok [n] => (width n, height n)
  | _ => (w, h)
  end.




(** ** Notions used in the further properties *)

Section MoreNotions.
Context {F : Type} `{Arith F}.
Variable cfg : Config F.

(** Two states of a node that differ by their sizes and scale at most. *)
Definition same_place (n n' : node F) : Prop :=
  image n' = image n /\ orig_width n' = orig_width n /\
  orig_height n' = orig_height n /\ fixed n' = fixed n /\
  x n' = x n /\ y n' = y n.

(** Two states of a node with the same picture and the same flag. *)
Definition same_identity (n n' : node F) : Prop :=
  image n' = image n /\ orig_width n' = orig_width n /\
  orig_height n' = orig_height n /\ fixed n' = fixed n.

(** The pair [(n1, n2)] gives the rescaler nothing to do: the boxes are
    apart, or the node it would shrink is refused a smaller scale. *)
Definition quiet_pair (n1 n2 : node F) : Prop :=
  boxes_overlap cfg (bounding_box n1) (bounding_box n2) = true ->
  shrink cfg (if width n1 * height n1 <? width n2 * height n2
              then n1 else n2) = None.

(** The downscaler cannot divide: a size exceeds the cap and a size is
    zero. *)
Definition undividable (n : node F) : Prop :=
  (MAX_INITIAL_DIM cfg < width n \/ MAX_INITIAL_DIM cfg < height n) /\
  (width n = 0 \/ height n = 0).

(** The paths built by the main block from the names of a directory. *)
Definition image_paths_of (names : list string) : list string :=
  map (fun f => (INPUT_DIRECTORY ++ "/" ++ f)%string)
      (filter (fun f => is_image_name f = true) names).

(** The number of trials of the main block. *)
Definition trial_count : Z :=
  match SORT_TYPE cfg with RANDOM => RANDOM_COUNT cfg | _ => 1 end.
End MoreNotions.


(** The first file of a run on [one_picture]. *)
Definition first_output : string * canvas :=
  ("collage-random1.png"%string,
   {| size := (512, 384);
      pasted := [("collage/wide.PNG"%string, (512, 384), (0, 0))] |}).

(** ** Control and data flow, for every arithmetic *)

Section Control.
Context {F : Type} `{Arith F}.
Variable cfg : Config F.
Variable sqrt : F -> F.
Variables cos sin : F -> F.
Variable pi : F.

Lemma bind_Ok {A B} (r : result A) (k : A -> result B) b :
  bind r k = Ok b -> exists a, r = Ok a /\ k a = Ok b.
Proof. destruct r as [a|e]; simpl; [eauto|discriminate]. Qed.

Lemma mapM_Ok_Forall2 {A B} (f : A -> result B) l l' :
  mapM f l = Ok l' -> Forall2 (fun a b => f a = Ok b) l l'.
Proof.
  revert l'. induction l as [|a l IH]; simpl; intros l' Hm.
  - injection Hm as <-. constructor.
  - apply bind_Ok in Hm as (b & Hb & Hm).
    apply bind_Ok in Hm as (bs & Hbs & Hm).
    injection Hm as <-. constructor; auto.
Qed.

(** Replacing one element on the right of a pointwise relation. *)
Lemma Forall2_insert_right {A B} (R : A -> B -> Prop) l0 l k b' :
  Forall2 R l0 l ->
  (forall a b, l0 !! k = Some a -> l !! k = Some b -> R a b') ->
  Forall2 R l0 (<[k := b']> l).
Proof.
  intros Hall Hk. apply Forall2_same_length_lookup. split.
  - rewrite length_insert. by eapply Forall2_length.
  - intros i a b Ha Hb. destruct (decide (k = i)) as [->|Hne].
    + destruct (l !! i) as [b0|] eqn:Hb0.
      * rewrite list_lookup_insert_eq in Hb by (by eapply lookup_lt_Some).
        injection Hb as <-. by eapply Hk.
      * apply lookup_ge_None in Hb0. apply lookup_lt_Some in Ha.
        apply Forall2_length in Hall. lia.
    + rewrite list_lookup_insert_ne in Hb by done.
      by eapply Forall2_lookup_lr.
Qed.

Lemma Forall2_diag {A} (R : A -> A -> Prop) (l : list A) :
  (forall a, R a a) -> Forall2 R l l.
Proof. intros HR. apply Forall_Forall2_diag, Forall_forall. auto. Qed.

(** *** The rescaler as a sequence of updates *)

Lemma rescale_pair_cases st i j :
  rescale_pair cfg st i j = st \/
  exists k n n', (k = i \/ k = j) /\ fst st !! k = Some n /\
    shrink cfg n = Some n' /\
    rescale_pair cfg st i j = (<[k := n']> (fst st), true).
Proof.
  unfold rescale_pair.
  destruct (fst st !! i) as [n1|] eqn:Hi; [|by left].
  destruct (fst st !! j) as [n2|] eqn:Hj; [|by left].
  destruct (boxes_overlap _ _ _); [|by left].
  destruct (width n1 * height n1 <? width n2 * height n2).
  - destruct (shrink cfg n1) as [n'|] eqn:Hs; [|by left].
    right. exists i, n1, n'. auto.
  - destruct (shrink cfg n2) as [n'|] eqn:Hs; [|by left].
    right. exists j, n2, n'. auto.
Qed.

Lemma rescale_pair_rtc st i j :
  rtc (shrink_step cfg) (fst st) (fst (rescale_pair cfg st i j)).
Proof.
  destruct (rescale_pair_cases st i j) as [->|(k & n & n' & _ & Hk & Hs & ->)].
  - done.
  - apply rtc_once. by econstructor.
Qed.

Lemma rescale_row_rtc num st i :
  rtc (shrink_step cfg) (fst st) (fst (rescale_row cfg num st i)).
Proof.
  unfold rescale_row. generalize (seq 0 num) as js. intros js. revert st.
  induction js as [|j js IH]; intros st; simpl; [done|].
  destruct (j <=? i)%nat; [apply IH|].
  etrans; [apply rescale_pair_rtc|apply IH].
Qed.

Lemma attempt_rescale_rtc nodes :
  rtc (shrink_step cfg) nodes (fst (attempt_rescale cfg nodes)).
Proof.
  unfold attempt_rescale. generalize (length nodes) at 1 as num. intros num.
  change nodes with (fst (nodes, false)) at 1.
  generalize (nodes, false) as st. generalize (seq 0 (length nodes)) as rows.
  intros rows. induction rows as [|i rows IH]; intros st; simpl; [done|].
  etrans; [apply rescale_row_rtc|apply IH].
Qed.

Lemma rescale_attempts_rtc attempts nodes :
  rtc (shrink_step cfg) nodes (rescale_attempts cfg attempts nodes).
Proof.
  revert nodes. induction attempts as [|k IH]; intros nodes; simpl; [done|].
  pose proof (attempt_rescale_rtc nodes) as Hr.
  destruct (attempt_rescale cfg nodes) as [nodes' changed]. simpl in Hr.
  destruct changed; [|done]. etrans; [exact Hr|apply IH].
Qed.

(** *** Fixed nodes under the solver *)

Lemma apply_forces_at_length nodes i :
  length (apply_forces_at cfg sqrt nodes i) = length nodes.
Proof.
  unfold apply_forces_at. destruct (nodes !! i) as [n1|]; [|done].
  destruct (fixed n1); [done|]. by rewrite length_insert.
Qed.

Lemma apply_forces_at_fixed nodes i k n :
  nodes !! k = Some n -> fixed n = true ->
  apply_forces_at cfg sqrt nodes i !! k = Some n.
Proof.
  intros Hk Hf. unfold apply_forces_at.
  destruct (nodes !! i) as [n1|] eqn:Hi; [|done].
  destruct (fixed n1) eqn:Hf1; [done|].
  destruct (decide (i = k)) as [->|Hne]; [congruence|].
  by rewrite list_lookup_insert_ne.
Qed.

Lemma apply_forces_fixed nodes k n :
  nodes !! k = Some n -> fixed n = true ->
  apply_forces cfg sqrt nodes !! k = Some n.
Proof.
  unfold apply_forces. generalize (seq 0 (length nodes)) as idx.
  intros idx. revert nodes.
  induction idx as [|i idx IH]; intros nodes Hk Hf; [done|].
  simpl. apply IH; [|done]. by apply apply_forces_at_fixed.
Qed.

Lemma shrink_keeps_place n n' :
  shrink cfg n = Some n' ->
  fixed n' = fixed n /\ x n' = x n /\ y n' = y n.
Proof.
  unfold shrink. destruct (_ <=? _)%F; [|discriminate].
  intros [= <-]. done.
Qed.

Lemma shrink_step_pinned px py k l l' :
  shrink_step cfg l l' -> pinned px py k l -> pinned px py k l'.
Proof.
  intros [l0 i n n' Hi Hs] (a & Ha & Hf & Hx & Hy).
  destruct (decide (i = k)) as [->|Hne].
  - exists n'. rewrite list_lookup_insert_eq by (by eapply lookup_lt_Some).
    apply shrink_keeps_place in Hs as (Hf' & Hx' & Hy').
    assert (a = n) by congruence. subst a.
    split; [done|]. repeat split; congruence.
  - exists a. by rewrite list_lookup_insert_ne.
Qed.

Lemma rtc_shrink_pinned px py k l l' :
  rtc (shrink_step cfg) l l' -> pinned px py k l -> pinned px py k l'.
Proof. induction 1; eauto using shrink_step_pinned. Qed.

Lemma relax_pinned px py k nodes iteration :
  pinned px py k nodes -> pinned px py k (relax cfg sqrt nodes iteration).
Proof.
  intros (a & Ha & Hf & Hx & Hy). unfold relax.
  assert (pinned px py k (apply_forces cfg sqrt nodes)) as Hp.
  { exists a. split; [by apply apply_forces_fixed|done]. }
  destruct (_ =? _); [|done].
  eapply rtc_shrink_pinned; [apply rescale_attempts_rtc|done].
Qed.

Lemma run_relaxation_pinned px py k nodes :
  pinned px py k nodes -> pinned px py k (run_relaxation cfg sqrt nodes).
Proof.
  unfold run_relaxation.
  generalize (seq 0 (Z.to_nat (RELAXATION_ITERATIONS cfg))) as its.
  intros its. revert nodes.
  induction its as [|it its IH]; intros nodes Hp; [done|].
  simpl. apply IH. by apply relax_pinned.
Qed.

(** C6: the node at index 0 of a placed layout is at the canvas center,
    and it is at the very same coordinates after the whole relaxation
    phase, whatever the number of iterations, the other nodes and the
    parameters are. *)
Theorem anchor_never_moves (nodes placed : list (node F)) :
  place_initial cfg cos sin pi nodes = Ok placed ->
  exists before after,
    placed !! 0%nat = Some before /\
    run_relaxation cfg sqrt placed !! 0%nat = Some after /\
    fixed before = true /\
    x before = of_Z (fst (CENTER cfg)) /\ y before = of_Z (snd (CENTER cfg)) /\
    x after = x before /\ y after = y before.
Proof.
  intros Hp. destruct nodes as [|n0 others]; [discriminate|].
  injection Hp as <-.
  set (a := set_fixed _ true).
  destruct (run_relaxation_pinned (x a) (y a) 0 (a :: imap
      (place_on_circle cfg cos sin pi (length (n0 :: others))) others))
    as (a' & Ha' & _ & Hx & Hy).
  { exists a. done. }
  exists a, a'. done.
Qed.

(** C7: on a layout of at least two nodes, [place_initial] puts the first
    node at the canvas center and marks it fixed, and puts the node after
    it at index [i + 1], for [i] from [0] to [n - 2], at distance
    [INITIAL_RADIUS] from the center at the angle [i] times
    [6 * pi / (n - 1)]. *)
Theorem place_initial_layout (nodes : list (node F)) :
  (2 <= length nodes)%nat ->
  let step := ((of_Z 6 * pi) / of_Z (Z.of_nat (length nodes) - 1))%F in
  exists placed,
    place_initial cfg cos sin pi nodes = Ok placed /\
    length placed = length nodes /\
    (exists anchor, placed !! 0%nat = Some anchor /\
       x anchor = of_Z (fst (TARGET_SIZE cfg) / 2) /\
       y anchor = of_Z (snd (TARGET_SIZE cfg) / 2) /\
       fixed anchor = true) /\
    forall i : nat, (i <= length nodes - 2)%nat ->
      exists n, placed !! S i = Some n /\
        x n = (of_Z (fst (TARGET_SIZE cfg) / 2)
               + of_Z (INITIAL_RADIUS cfg) * cos (step * of_Z (Z.of_nat i)))%F /\
        y n = (of_Z (snd (TARGET_SIZE cfg) / 2)
               + of_Z (INITIAL_RADIUS cfg) * sin (step * of_Z (Z.of_nat i)))%F.
Proof.
  intros Hlen step. destruct nodes as [|n0 others]; [simpl in Hlen; lia|].
  eexists. split; [reflexivity|]. split; [|split].
  - simpl. by rewrite length_imap.
  - eexists. split; [reflexivity|]. done.
  - intros i Hi. cbn [length] in Hi, Hlen.
    destruct (others !! i) as [n|] eqn:Hn.
    2:{ apply lookup_ge_None in Hn. lia. }
    exists (place_on_circle cfg cos sin pi (length (n0 :: others)) i n).
    split.
    + simpl. rewrite list_lookup_imap, Hn. done.
    + unfold place_on_circle, angle_step, CENTER. simpl x. simpl y.
      replace (Z.of_nat (S i) - 1) with (Z.of_nat i) by lia.
      subst step. cbn [length]. rewrite Z.max_r by lia. done.
Qed.

(** *** Sizes after a change of scale *)

Lemma initial_rescale_node_truncated n n' :
  initial_rescale_node cfg n = Ok n' -> n' = n \/ truncated n'.
Proof.
  unfold initial_rescale_node. destruct (_ || _).
  - intros Hb. apply bind_Ok in Hb as (sw & _ & Hb).
    apply bind_Ok in Hb as (sh & _ & Hb). injection Hb as <-.
    right. split; reflexivity.
  - intros [= <-]. by left.
Qed.

Lemma shrink_truncated n n' : shrink cfg n = Some n' -> truncated n'.
Proof.
  unfold shrink. destruct (_ <=? _)%F; [|discriminate].
  intros [= <-]. split; reflexivity.
Qed.

Lemma shrink_step_truncated l0 l l' :
  Forall2 (fun n n' => n' = n \/ truncated n') l0 l ->
  shrink_step cfg l l' ->
  Forall2 (fun n n' => n' = n \/ truncated n') l0 l'.
Proof.
  intros Hall Hstep. destruct Hstep as [l k n n' Hk Hs].
  apply Forall2_insert_right; [done|].
  intros a b _ _. right. by eapply shrink_truncated.
Qed.

Lemma rtc_shrink_truncated l l' :
  rtc (shrink_step cfg) l l' ->
  Forall2 (fun n n' => n' = n \/ truncated n') l l'.
Proof.
  revert l'. apply rtc_ind_r.
  - apply Forall2_diag. auto.
  - intros l1 l2 _ Hs IH. eapply shrink_step_truncated; eauto.
Qed.

(** C2, as the script has it: after the downscaler and after a sweep of
    the rescaler, every node is either the node it was, or its sizes are
    its original sizes times its new scale, truncated by [int]. *)
Theorem sizes_follow_scale (nodes : list (node F)) :
  match initial_rescale cfg nodes with
  | Ok nodes' => Forall2 (fun n n' => n' = n \/ truncated n') nodes nodes'
  | Raise _ => True
  end /\
  Forall2 (fun n n' => n' = n \/ truncated n') nodes
          (fst (attempt_rescale cfg nodes)).
Proof.
  split.
  - destruct (initial_rescale cfg nodes) as [nodes'|e] eqn:Hi; [|done].
    apply mapM_Ok_Forall2 in Hi.
    eapply Forall2_impl; [exact Hi|]. apply initial_rescale_node_truncated.
  - apply rtc_shrink_truncated, attempt_rescale_rtc.
Qed.

(** *** The order of the updates in a sweep of the solver *)

Lemma apply_forces_at_other nodes i k :
  i <> k -> apply_forces_at cfg sqrt nodes i !! k = nodes !! k.
Proof.
  intros Hne. unfold apply_forces_at.
  destruct (nodes !! i) as [n1|]; [|done].
  destruct (fixed n1); [done|]. by rewrite list_lookup_insert_ne.
Qed.

Lemma apply_forces_steps_other idx nodes k :
  k ∉ idx ->
  fold_left (apply_forces_at cfg sqrt) idx nodes !! k = nodes !! k.
Proof.
  revert nodes. induction idx as [|i idx IH]; intros nodes Hk; [done|].
  simpl. apply not_elem_of_cons in Hk as [Hne Hk].
  rewrite IH by done. by apply apply_forces_at_other.
Qed.

Lemma apply_forces_steps_length idx nodes :
  length (fold_left (apply_forces_at cfg sqrt) idx nodes) = length nodes.
Proof.
  revert nodes. induction idx as [|i idx IH]; intros nodes; [done|].
  simpl. by rewrite IH, apply_forces_at_length.
Qed.

Lemma apply_forces_length nodes :
  length (apply_forces cfg sqrt nodes) = length nodes.
Proof. apply apply_forces_steps_length. Qed.

(** The solver as the updates of the first [i] nodes followed by the
    updates of the others. *)
Lemma apply_forces_split nodes i :
  (i <= length nodes)%nat ->
  apply_forces cfg sqrt nodes =
  fold_left (apply_forces_at cfg sqrt) (seq i (length nodes - i))
    (fold_left (apply_forces_at cfg sqrt) (seq 0 i) nodes).
Proof.
  intros Hi. unfold apply_forces. rewrite <- fold_left_app.
  rewrite <- seq_app. f_equal. f_equal. lia.
Qed.

(** When the sweep reaches index [i], the nodes before it hold their new
    positions and the nodes from [i] on still hold their old ones. *)
Lemma apply_forces_prefix nodes i :
  (i <= length nodes)%nat ->
  fold_left (apply_forces_at cfg sqrt) (seq 0 i) nodes =
  take i (apply_forces cfg sqrt nodes) ++ drop i nodes.
Proof.
  intros Hi. apply list_eq. intros k.
  destruct (decide (k < i)%nat) as [Hlt|Hge].
  - rewrite lookup_app_l.
    2:{ rewrite length_take, apply_forces_length. lia. }
    rewrite lookup_take_lt by done.
    rewrite (apply_forces_split nodes i) by done.
    rewrite (apply_forces_steps_other (seq i _)); [done|].
    rewrite elem_of_seq. lia.
  - rewrite lookup_app_r.
    2:{ rewrite length_take, apply_forces_length. lia. }
    rewrite length_take, apply_forces_length, lookup_drop.
    rewrite apply_forces_steps_other.
    + f_equal. lia.
    + rewrite elem_of_seq. lia.
Qed.

Lemma apply_forces_lookup nodes i :
  (i < length nodes)%nat ->
  apply_forces cfg sqrt nodes !! i =
  apply_forces_at cfg sqrt
    (take i (apply_forces cfg sqrt nodes) ++ drop i nodes) i !! i.
Proof.
  intros Hi. rewrite <- apply_forces_prefix by lia.
  rewrite (apply_forces_split nodes (S i)) by lia.
  rewrite apply_forces_steps_other.
  2:{ rewrite elem_of_seq. lia. }
  by rewrite seq_S, fold_left_app.
Qed.

Lemma apply_forces_steps_all_fixed idx nodes :
  (forall k n, k ∈ idx -> nodes !! k = Some n -> fixed n = true) ->
  fold_left (apply_forces_at cfg sqrt) idx nodes = nodes.
Proof.
  induction idx as [|i idx IH]; intros Hf; [done|].
  simpl. assert (apply_forces_at cfg sqrt nodes i = nodes) as ->.
  { unfold apply_forces_at. destruct (nodes !! i) as [n1|] eqn:Hn; [|done].
    rewrite (Hf i n1); [done| |done]. left. }
  apply IH. intros k n Hk. apply Hf. by right.
Qed.

(** C4, as the script has it: in one sweep the new position of the node
    at index [i] is computed from the new positions of the nodes that come
    before it and from the old positions of the others.  The variant with
    a barrier gives that node the same position when every node before it
    is fixed, which in a run is the case of the first node after the
    anchor only. *)
Theorem forces_read_updated_positions (nodes : list (node F)) (i : nat) :
  (i < length nodes)%nat ->
  apply_forces cfg sqrt nodes !! i =
    apply_forces_at cfg sqrt
      (take i (apply_forces cfg sqrt nodes) ++ drop i nodes) i !! i /\
  (Forall (fun n => fixed n = true) (take i nodes) ->
   apply_forces cfg sqrt nodes !! i = apply_forces_deferred cfg sqrt nodes !! i).
Proof.
  intros Hi. split; [by apply apply_forces_lookup|].
  intros Hfix. rewrite apply_forces_lookup by done.
  rewrite <- apply_forces_prefix by lia.
  rewrite apply_forces_steps_all_fixed.
  - unfold apply_forces_at, apply_forces_deferred.
    rewrite list_lookup_imap.
    destruct (nodes !! i) as [n1|] eqn:Hn.
    2:{ apply lookup_ge_None in Hn. lia. }
    simpl. destruct (fixed n1); [done|].
    by rewrite list_lookup_insert_eq.
  - intros k n Hk Hn. rewrite elem_of_seq in Hk.
    rewrite Forall_forall in Hfix. apply Hfix.
    apply list_elem_of_lookup. exists k. rewrite lookup_take_lt by lia. done.
Qed.

(** *** The pairs of a sweep of the rescaler *)

Lemma fold_left_flat_map {A B C} (f : A -> B -> A) (g : C -> list B) l a :
  fold_left f (flat_map g l) a = fold_left (fun a c => fold_left f (g c) a) l a.
Proof.
  revert a. induction l as [|c l IH]; intros a; simpl; [done|].
  by rewrite fold_left_app, IH.
Qed.

Lemma rescale_row_skip js st i :
  (forall j, j ∈ js -> (j <= i)%nat) ->
  fold_left (fun st j => if (j <=? i)%nat then st else rescale_pair cfg st i j)
            js st = st.
Proof.
  induction js as [|j js IH]; intros Hjs; [done|].
  simpl. rewrite (proj2 (Nat.leb_le j i)) by (apply Hjs; left).
  apply IH. intros j' Hj'. apply Hjs. by right.
Qed.

Lemma rescale_row_keep js st i :
  (forall j, j ∈ js -> (i < j)%nat) ->
  fold_left (fun st j => if (j <=? i)%nat then st else rescale_pair cfg st i j)
            js st = rescale_pairs cfg (map (pair i) js) st.
Proof.
  revert st. induction js as [|j js IH]; intros st Hjs; [done|].
  simpl. rewrite (proj2 (Nat.leb_gt j i)) by (apply Hjs; left).
  apply IH. intros j' Hj'. apply Hjs. by right.
Qed.

Lemma rescale_row_pairs num st i :
  rescale_row cfg num st i =
  rescale_pairs cfg (map (pair i) (seq (S i) (num - S i))) st.
Proof.
  unfold rescale_row.
  replace (seq 0 num) with (seq 0 (Nat.min (S i) num) ++ seq (S i) (num - S i)).
  2:{ destruct (decide (S i <= num)%nat).
      - rewrite Nat.min_l by lia. rewrite <- seq_app. f_equal. lia.
      - rewrite Nat.min_r by lia. replace (num - S i)%nat with 0%nat by lia.
        simpl. by rewrite app_nil_r. }
  rewrite fold_left_app, (rescale_row_skip (seq 0 _)).
  - apply rescale_row_keep. intros j Hj. rewrite elem_of_seq in Hj. lia.
  - intros j Hj. rewrite elem_of_seq in Hj. lia.
Qed.

(** The two loops of [attempt_rescale] visit the pairs [i < j] once each,
    in lexicographic order. *)
Lemma attempt_rescale_pairs nodes :
  attempt_rescale cfg nodes =
  rescale_pairs cfg (unordered_pairs (length nodes)) (nodes, false).
Proof.
  unfold attempt_rescale, rescale_pairs, unordered_pairs.
  rewrite fold_left_flat_map. generalize (nodes, false) as st.
  generalize (length nodes) at 1 3 as num. intros num.
  generalize (seq 0 (length nodes)) as rows.
  induction rows as [|i rows IH]; intros st; simpl; [done|].
  by rewrite rescale_row_pairs, IH.
Qed.

Lemma elem_of_unordered_pairs num i j :
  (i, j) ∈ unordered_pairs num <-> (i < j < num)%nat.
Proof.
  unfold unordered_pairs. rewrite list_elem_of_In, in_flat_map. split.
  - intros (i' & Hi' & Hin). apply in_map_iff in Hin as (j' & [= -> ->] & Hj').
    apply in_seq in Hi'. apply in_seq in Hj'. lia.
  - intros Hij. exists i. split; [apply in_seq; lia|].
    apply in_map_iff. exists j. split; [done|]. apply in_seq. lia.
Qed.

(** *** A run as a sequence of steps *)

Lemma rescale_attempts_run attempts nodes :
  rtc (run_step cfg sqrt cos sin pi) nodes (rescale_attempts cfg attempts nodes).
Proof.
  revert nodes. induction attempts as [|k IH]; intros nodes; simpl; [done|].
  pose proof (run_rescale cfg sqrt cos sin pi nodes) as Hstep.
  destruct (attempt_rescale cfg nodes) as [nodes' changed]. simpl in Hstep.
  destruct changed.
  - eapply rtc_l; [exact Hstep|apply IH].
  - by apply rtc_once.
Qed.

Lemma run_relaxation_run nodes :
  rtc (run_step cfg sqrt cos sin pi) nodes (run_relaxation cfg sqrt nodes).
Proof.
  unfold run_relaxation.
  generalize (seq 0 (Z.to_nat (RELAXATION_ITERATIONS cfg))) as its.
  intros its. revert nodes.
  induction its as [|it its IH]; intros nodes; simpl; [done|].
  etrans; [|apply IH]. unfold relax.
  eapply rtc_l; [apply run_forces|].
  destruct (_ =? _); [apply rescale_attempts_run|done].
Qed.

Lemma insert_desc_perm key (n : node F) l : insert_desc key n l ≡ₚ n :: l.
Proof.
  induction l as [|m l IH]; simpl; [done|].
  destruct (key m <=? key n); [done|].
  rewrite IH. apply Permutation_swap.
Qed.

Lemma sorted_desc_perm key (nodes : list (node F)) :
  sorted_desc key nodes ≡ₚ nodes.
Proof.
  induction nodes as [|n nodes IH]; simpl; [done|].
  by rewrite insert_desc_perm, IH.
Qed.

Lemma reorder_perm (world : World F) trial nodes :
  (forall t l, sample world t l ≡ₚ l) ->
  reorder cfg world trial nodes ≡ₚ nodes.
Proof.
  intros Hsample. unfold reorder, sort_by_area, sort_by_width, sort_by_height.
  destruct (SORT_TYPE cfg); auto using sorted_desc_perm.
Qed.

Lemma load_images_as_loaded (decode : string -> result (Z * Z)) paths nodes :
  (forall path w h, decode path = Ok (w, h) -> 0 < w /\ 0 < h) ->
  load_images decode paths = Ok nodes -> Forall as_loaded nodes.
Proof.
  intros Hdec Hload. apply mapM_Ok_Forall2 in Hload.
  induction Hload as [|path n paths nodes Hn _ IH]; constructor; [|done].
  apply bind_Ok in Hn as ([w h] & Hwh & Hn). injection Hn as <-.
  destruct (Hdec _ _ _ Hwh). by repeat split.
Qed.

(** The lists that one trial of the main block goes through are linked by
    steps of a run. *)
Lemma trial_is_a_run (world : World F) paths trial loaded scaled placed :
  (forall path w h, open_image world path = Ok (w, h) -> 0 < w /\ 0 < h) ->
  (forall t l, sample world t l ≡ₚ l) ->
  load_images (open_image world) paths = Ok loaded ->
  initial_rescale cfg loaded = Ok scaled ->
  place_initial cfg cos sin pi (reorder cfg world trial scaled) = Ok placed ->
  Forall as_loaded loaded /\
  rtc (run_step cfg sqrt cos sin pi) loaded (run_relaxation cfg sqrt placed).
Proof.
  intros Hdec Hsample Hload Hscale Hplace.
  pose proof (load_images_as_loaded _ _ _ Hdec Hload) as Hl.
  split; [done|].
  eapply rtc_l; [by apply run_downscale|].
  eapply rtc_l; [apply run_reorder; symmetry; by apply (reorder_perm world trial)|].
  eapply rtc_l; [by apply run_place|].
  apply run_relaxation_run.
Qed.

(** *** Runs without pictures *)

Lemma trials_first (world : World F) paths count trial todo e :
  generate cfg sqrt cos sin pi world paths count trial = Raise e ->
  trials cfg sqrt cos sin pi world paths count (trial :: todo) [] = ([], Raise e).
Proof. intros Hg. simpl. by rewrite Hg. Qed.

(** C8, as the script has it: when the directory is missing, the listing
    raises [FileNotFoundError], an [IOError], and nothing is written; when
    the directory holds no picture, the first trial raises [IndexError]
    in [place_initial], which is not an [IOError], and nothing is written
    either, whatever the number of trials, provided there is at least
    one. *)
Theorem no_pictures_no_output (world : World F) :
  (forall t l, sample world t l ≡ₚ l) ->
  (listdir world = Raise FileNotFoundError ->
   main cfg sqrt cos sin pi world = ([], Raise FileNotFoundError)) /\
  (forall names,
     listdir world = Ok names ->
     filter (fun f => is_image_name f = true) names = [] ->
     1 <= match SORT_TYPE cfg with RANDOM => RANDOM_COUNT cfg | _ => 1 end ->
     main cfg sqrt cos sin pi world = ([], Raise IndexError)) /\
  is_IOError FileNotFoundError = true /\ is_IOError IndexError = false.
Proof.
  intros Hsample. split; [|split; [|done]].
  - intros Hl. unfold main. by rewrite Hl.
  - intros names Hl Hnone Hcount. unfold main. rewrite Hl, Hnone.
    set (count := match SORT_TYPE cfg with RANDOM => RANDOM_COUNT cfg | _ => 1 end) in *.
    destruct (Z.to_nat count) as [|k] eqn:Hk; [lia|].
    simpl seq. apply trials_first.
    unfold generate. simpl.
    assert (reorder cfg world 0 [] = []) as ->; [|done].
    apply Permutation_nil_r. by apply reorder_perm.
Qed.
End Control.

(** ** Layouts evaluated on doubles *)

(** The first scenario of the design document, through the main block: one
    800 by 600 picture gives one file per trial, each of them 512 by 384
    with the picture, scaled to 512 by 384, pasted at the origin. *)
Example one_picture_run :
  let run := main short_config PrimFloat.sqrt series_cos series_sin decimal_pi
                  one_picture in
  (snd run, map (fun out => (size (snd out), pasted (snd out))) (fst run),
   map fst (take 3 (fst run))) =
  (Ok tt,
   replicate 3 ((512, 384), [("collage/wide.PNG"%string, (512, 384), (0, 0))]),
   ["collage-random1.png"; "collage-random2.png"; "collage-random3.png"]%string).
Proof. vm_compute. reflexivity. Qed.

(** On doubles the product [w * (512 / w)] can fall just under 512, and
    [int] then gives 511 where exact arithmetic gives 512; the sizes stay
    within the cap all the same, here for every width and every height
    from 513 to 1024. *)
Example downscaler_on_doubles :
  downscaled_sizes 561 400 = (511, 365) /\
  forallb (fun w => let '(w', h') := downscaled_sizes w 512 in
                    (w' <=? 512) && (h' <=? 512))
          (map Z.of_nat (seq 513 512)) = true /\
  forallb (fun h => let '(w', h') := downscaled_sizes 512 h in
                    (w' <=? 512) && (h' <=? 512))
          (map Z.of_nat (seq 513 512)) = true.
Proof. repeat split; vm_compute; reflexivity. Qed.

(** C10: the two loops of [attempt_rescale] go through the pairs one after
    the other and each pair is decided on the list as the pairs before it
    left it.  On [chain] the first pair shrinks the middle square, which
    then no longer reaches the third one, so the third keeps its scale;
    decided on the sizes at the start of the sweep, the third would have
    been shrunk as well. *)
Theorem rescale_reads_current_sizes :
  (forall F (arith : Arith F) (cfg : Config F) (nodes : list (node F)),
     attempt_rescale cfg nodes =
     rescale_pairs cfg (unordered_pairs (length nodes)) (nodes, false)) /\
  (forall F (arith : Arith F) (cfg : Config F) before i j st,
     rescale_pairs cfg (before ++ [(i, j)]) st =
     rescale_pair cfg (rescale_pairs cfg before st) i j) /\
  unordered_pairs (length chain) = [(0, 1); (0, 2); (1, 2)]%nat /\
  rescale_pair_snapshot float_config chain (chain, false) (1, 2)%nat
    <> (chain, false) /\
  rescale_pair float_config
    (rescale_pairs float_config [(0, 1); (0, 2)]%nat (chain, false)) 1 2
    = rescale_pairs float_config [(0, 1); (0, 2)]%nat (chain, false) /\
  map scale (fst (attempt_rescale float_config chain))
    = [of_Z 1; SCALE_FACTOR float_config; of_Z 1] /\
  map scale (fst (attempt_rescale_snapshot float_config chain))
    = [of_Z 1; SCALE_FACTOR float_config; SCALE_FACTOR float_config].
Proof.
  split; [intros; apply attempt_rescale_pairs|].
  split; [intros; unfold rescale_pairs; by rewrite fold_left_app|].
  split; [reflexivity|].
  split; [|repeat split; vm_compute; reflexivity].
  intros Heq. apply (f_equal snd) in Heq. vm_compute in Heq. discriminate.
Qed.


(** C2 fails on the script: an 801 by 600 picture is given the height
    383, and the nearest integer of 600 times its scale is 384. *)
Lemma sizes_are_not_rounded :
  exists n,
    initial_rescale float_config [new_node "wide.png" 801 600] = Ok [n] /\
    height n = 383 /\
    nearest_int (height n) (of_Z (orig_height n) * scale n)%F = false /\
    nearest_int 384 (of_Z (orig_height n) * scale n)%F = true.
Proof.
  eexists. split; [vm_compute; reflexivity|].
  repeat split; vm_compute; reflexivity.
Qed.

(** C4 fails on the script: on [three_in_a_row] the solver moves the
    second node first, out of reach of the third, which is then only
    drawn to the center; with a barrier the third node is pushed away. *)
Lemma barrier_changes_the_sweep :
  apply_forces float_config PrimFloat.sqrt three_in_a_row
  <> apply_forces_deferred float_config PrimFloat.sqrt three_in_a_row.
Proof.
  intros Heq.
  apply (f_equal (fun l => (from_option x (of_Z 0) (l !! 2%nat) <? of_Z 2210)%F))
    in Heq.
  vm_compute in Heq. discriminate.
Qed.

(** ** Numeric bounds, on exact rationals *)

Section Exact.
Variable cfg : Config Q.
Variable sqrt : Q -> Q.
Variables cos sin : Q -> Q.
Variable pi : Q.












(** *** The downscaler *)



(** *** The scale over a run *)
















(** *** One sweep of the rescaler *)












(** *** The exported canvas *)











End Exact.

(** ** The statements at concrete inputs *)

(** C8 fails on the script: with a directory that holds no picture the
    run ends with [IndexError], which is not an [IOError]. *)
Lemma empty_directory_raises_IndexError :
  main float_config PrimFloat.sqrt series_cos series_sin decimal_pi
       empty_directory = ([], Raise IndexError) /\
  is_IOError IndexError = false.
Proof. split; reflexivity. Qed.



(** The first node after the anchor of [three_in_a_row]. *)
Lemma forces_read_updated_positions_witness :
  (1 < length three_in_a_row)%nat /\
  Forall (fun n => fixed n = true) (take 1 three_in_a_row) /\
  apply_forces float_config PrimFloat.sqrt three_in_a_row !! 1%nat =
  apply_forces_deferred float_config PrimFloat.sqrt three_in_a_row !! 1%nat.
Proof.
  assert (1 < length three_in_a_row)%nat as Hi by (simpl; lia).
  assert (Forall (fun n : node float => fixed n = true) (take 1 three_in_a_row))
    as Hfix by (repeat constructor).
  split; [exact Hi|]. split; [exact Hfix|].
  exact (proj2 (forces_read_updated_positions float_config PrimFloat.sqrt
                  three_in_a_row 1 Hi) Hfix).
Defined.


(** The placement and relaxation of [three_in_a_row]. *)
Lemma anchor_never_moves_witness :
  exists placed before after,
    place_initial float_config series_cos series_sin decimal_pi
      three_in_a_row = Ok placed /\
    placed !! 0%nat = Some before /\
    run_relaxation float_config PrimFloat.sqrt placed !! 0%nat = Some after /\
    x after = x before /\ y after = y before.
Proof.
  eexists.
  destruct (anchor_never_moves float_config PrimFloat.sqrt series_cos
              series_sin decimal_pi three_in_a_row _ eq_refl)
    as (before & after & Hb & Ha & _ & _ & _ & Hx & Hy).
  exists before, after. repeat split; [exact Hb|exact Ha|exact Hx|exact Hy].
Defined.

(** The placement of [three_in_a_row]. *)
Lemma place_initial_layout_witness :
  (2 <= length three_in_a_row)%nat /\
  exists placed,
    place_initial float_config series_cos series_sin decimal_pi
      three_in_a_row = Ok placed /\
    length placed = length three_in_a_row.
Proof.
  assert (2 <= length three_in_a_row)%nat as Hlen by (simpl; lia).
  split; [exact Hlen|].
  destruct (place_initial_layout float_config series_cos series_sin
              decimal_pi three_in_a_row Hlen) as (placed & Hp & Hl & _).
  exists placed. split; [exact Hp|exact Hl].
Defined.

(** A missing directory and a directory without pictures. *)
Lemma no_pictures_no_output_witness :
  main float_config PrimFloat.sqrt series_cos series_sin decimal_pi
       missing_directory = ([], Raise FileNotFoundError) /\
  main float_config PrimFloat.sqrt series_cos series_sin decimal_pi
       empty_directory = ([], Raise IndexError).
Proof.
  split.
  - apply (no_pictures_no_output float_config PrimFloat.sqrt series_cos
             series_sin decimal_pi missing_directory); [|reflexivity].
    intros t l. reflexivity.
  - apply (no_pictures_no_output float_config PrimFloat.sqrt series_cos
             series_sin decimal_pi empty_directory)
      with (names := ["notes.txt"; "README"]%string).
    + intros t l. reflexivity.
    + reflexivity.
    + reflexivity.
    + simpl. lia.
Defined.


(** ** Further properties of the control and data flow *)

Section MoreControl.
Context {F : Type} `{Arith F}.
Variable cfg : Config F.
Variable sqrt : F -> F.
Variables cos sin : F -> F.
Variable pi : F.

(** *** Loops that stop at the first exception *)

Lemma mapM_Raise {A B} (f : A -> result B) l e :
  mapM f l = Raise e <->
  exists before a after,
    l = before ++ a :: after /\
    Forall (fun b => exists c, f b = Ok c) before /\ f a = Raise e.
Proof.
  split.
  - induction l as [|a l IH]; simpl; [discriminate|].
    destruct (f a) as [b|e'] eqn:Hfa; simpl.
    + destruct (mapM f l) as [bs|e''] eqn:Hm; simpl; [discriminate|].
      intros [= ->]. destruct (IH eq_refl) as (before & a' & after & -> & Hb & Ha').
      exists (a :: before), a', after. split; [done|]. split; [|done].
      constructor; [by exists b|done].
    + intros [= ->]. exists [], a, l. by repeat split.
  - intros (before & a & after & -> & Hb & Ha).
    induction Hb as [|b before [c Hc] _ IH]; simpl.
    + by rewrite Ha.
    + by rewrite Hc, IH.
Qed.

Lemma mapM_Ok_length {A B} (f : A -> result B) l l' :
  mapM f l = Ok l' -> length l' = length l.
Proof.
  intros Hm. apply mapM_Ok_Forall2 in Hm. symmetry. by eapply Forall2_length.
Qed.

(** X1: the overlap test does not depend on the order of the two
    boxes. *)
Theorem boxes_overlap_sym (b1 b2 : F * F * F * F) :
  boxes_overlap cfg b1 b2 = boxes_overlap cfg b2 b1.
Proof.
  destruct b1 as [[[b1x1 b1y1] b1x2] b1y2].
  destruct b2 as [[[b2x1 b2y1] b2x2] b2y2].
  unfold boxes_overlap. f_equal.
  destruct (_ <? b2x1)%F, (_ <? b1x1)%F, (_ <? b2y1)%F, (_ <? b1y1)%F;
    reflexivity.
Qed.

(** X2: [load_images] returns one node per path, in the order of the
    paths, each as large as its picture, with scale 1, not fixed; or it
    raises the exception of the first path that does not decode. *)
Theorem load_images_result (decode : string -> result (Z * Z)) paths :
  match load_images decode paths with
  | Ok nodes =>
      Forall2 (fun path n =>
                 exists w h, decode path = Ok (w, h) /\ n = new_node path w h)
              paths nodes
  | Raise e =>
      exists before path after,
        paths = before ++ path :: after /\
        Forall (fun p => exists wh, decode p = Ok wh) before /\
        decode path = Raise e
  end.
Proof.
  destruct (load_images decode paths) as [nodes|e] eqn:Hl.
  - apply mapM_Ok_Forall2 in Hl. eapply Forall2_impl; [exact Hl|].
    intros path n Hn. apply bind_Ok in Hn as ([w h] & Hd & Hn).
    injection Hn as <-. by exists w, h.
  - apply mapM_Raise in Hl as (before & path & after & -> & Hb & Hp).
    exists before, path, after. split; [done|]. split.
    + eapply Forall_impl; [exact Hb|]. intros p [n Hn].
      apply bind_Ok in Hn as (wh & Hd & _). by exists wh.
    + destruct (decode path) as [wh|e'] eqn:Hd; [discriminate|].
      simpl in Hp. congruence.
Qed.

(** *** When the downscaler raises *)

Lemma initial_rescale_node_Raise n e :
  initial_rescale_node cfg n = Raise e <->
  e = ZeroDivisionError /\ undividable cfg n.
Proof.
  unfold initial_rescale_node, undividable, truediv.
  destruct (_ || _) eqn:Hbig.
  - assert (MAX_INITIAL_DIM cfg < width n \/ MAX_INITIAL_DIM cfg < height n)
      as Hex.
    { apply orb_true_iff in Hbig as [Hb|Hb]; apply Z.ltb_lt in Hb; auto. }
    destruct (width n =? 0) eqn:Hw.
    + apply Z.eqb_eq in Hw. simpl. split; [intros [= <-]; auto|].
      by intros [-> _].
    + apply Z.eqb_neq in Hw. simpl. destruct (height n =? 0) eqn:Hh.
      * apply Z.eqb_eq in Hh. simpl. split; [intros [= <-]; auto|].
        by intros [-> _].
      * apply Z.eqb_neq in Hh. simpl. split; [discriminate|].
        intros (_ & _ & [?|?]); lia.
  - apply orb_false_iff in Hbig as [Hb1 Hb2]. apply Z.ltb_ge in Hb1, Hb2.
    split; [discriminate|]. intros (_ & [?|?] & _); lia.
Qed.

(** X3: the downscaler raises exactly when some node has a size above the
    cap and a size equal to zero, and the exception is then
    [ZeroDivisionError]. *)
Theorem initial_rescale_raises (nodes : list (node F)) e :
  initial_rescale cfg nodes = Raise e <->
  e = ZeroDivisionError /\ exists n, n ∈ nodes /\ undividable cfg n.
Proof.
  unfold initial_rescale. rewrite mapM_Raise. split.
  - intros (before & n & after & -> & _ & Hn).
    apply initial_rescale_node_Raise in Hn as [-> Hn].
    split; [done|]. exists n. split; [|done].
    apply elem_of_app. right. left.
  - intros [-> (n & Hin & Hn)].
    induction nodes as [|m nodes IH]; [by apply elem_of_nil in Hin|].
    destruct (initial_rescale_node cfg m) as [m'|e] eqn:Hm.
    + apply elem_of_cons in Hin as [->|Hin].
      * assert (initial_rescale_node cfg m = Raise ZeroDivisionError) as Hr
          by (by apply initial_rescale_node_Raise).
        congruence.
      * destruct (IH Hin) as (before & a & after & -> & Hb & Ha).
        exists (m :: before), a, after. split; [done|]. split; [|done].
        constructor; [by exists m'|done].
    + pose proof Hm as Hm'. apply initial_rescale_node_Raise in Hm' as [-> _].
      exists [], m, nodes. split; [done|]. split; [constructor|exact Hm].
Qed.

(** *** What each phase leaves untouched *)

Lemma place_initial_pictures (nodes placed : list (node F)) :
  place_initial cfg cos sin pi nodes = Ok placed ->
  Forall2 same_picture nodes placed.
Proof.
  destruct nodes as [|n0 others]; [discriminate|]. intros [= <-].
  constructor; [by repeat split|].
  apply Forall2_same_length_lookup. split; [by rewrite length_imap|].
  intros k a b Ha Hb. rewrite list_lookup_imap, Ha in Hb.
  injection Hb as <-. by repeat split.
Qed.

(** X4: [place_initial] raises [IndexError] on an empty list and on no
    other; otherwise it keeps the nodes in order with their pictures,
    sizes and scales, marks the first one fixed and leaves the flag of
    the others as it was. *)
Theorem place_initial_frame (nodes : list (node F)) :
  match place_initial cfg cos sin pi nodes with
  | Ok placed =>
      Forall2 same_picture nodes placed /\
      (exists a, placed !! 0%nat = Some a /\ fixed a = true) /\
      (forall k n n', nodes !! S k = Some n -> placed !! S k = Some n' ->
                      fixed n' = fixed n)
  | Raise e => nodes = [] /\ e = IndexError
  end.
Proof.
  destruct nodes as [|n0 others]; [done|].
  pose proof (place_initial_pictures (n0 :: others)) as Hpic.
  simpl in *. split; [by apply Hpic|]. split.
  - eexists. split; [reflexivity|done].
  - intros k n n' Hn Hn'. simpl in Hn, Hn'.
    rewrite list_lookup_imap, Hn in Hn'. by injection Hn' as <-.
Qed.

Lemma pushed_set_pos nodes i (n1 : node F) :
  exists px py, pushed cfg sqrt nodes i n1 = set_pos n1 px py.
Proof.
  unfold pushed. destruct (bounding_box n1) as [[[? ?] ?] ?].
  destruct (fold_left _ _ _) as [fx fy]. destruct (_ <? _)%F; eauto.
Qed.

(** The relation between a node before and after a sweep of the
    solver. *)
Lemma apply_forces_at_moves l0 nodes i :
  Forall2 (fun n n' => same_picture n n' /\ fixed n' = fixed n /\
                       (fixed n = true -> n' = n)) l0 nodes ->
  Forall2 (fun n n' => same_picture n n' /\ fixed n' = fixed n /\
                       (fixed n = true -> n' = n))
          l0 (apply_forces_at cfg sqrt nodes i).
Proof.
  intros Hall. unfold apply_forces_at.
  destruct (nodes !! i) as [n1|] eqn:Hn; [|done].
  destruct (fixed n1) eqn:Hf; [done|].
  apply Forall2_insert_right; [done|].
  intros a b Ha Hb. assert (b = n1) as -> by congruence.
  destruct (Forall2_lookup_lr _ _ _ _ _ _ Hall Ha Hn) as (Hs & Hfa & _).
  destruct (pushed_set_pos nodes i n1) as (px & py & ->).
  split; [|split].
  - unfold same_picture in *. simpl. intuition congruence.
  - simpl. congruence.
  - intros Hfix. congruence.
Qed.

Lemma apply_forces_moves nodes :
  Forall2 (fun n n' => same_picture n n' /\ fixed n' = fixed n /\
                       (fixed n = true -> n' = n))
          nodes (apply_forces cfg sqrt nodes).
Proof.
  unfold apply_forces. generalize (seq 0 (length nodes)) as idx. intros idx.
  assert (Forall2 (fun n n' : node F => same_picture n n' /\ fixed n' = fixed n
                     /\ (fixed n = true -> n' = n)) nodes nodes) as Hall.
  { apply Forall2_diag. intros a. by repeat split. }
  revert Hall. generalize nodes at 2 4 as cur. intros cur. revert cur.
  induction idx as [|i idx IH]; intros cur Hall; [done|].
  simpl. apply IH. by apply apply_forces_at_moves.
Qed.

(** X5: a sweep of the solver keeps the nodes in order, changes nothing
    but the coordinates, and changes nothing at all of a fixed node. *)
Theorem apply_forces_frame (nodes : list (node F)) :
  length (apply_forces cfg sqrt nodes) = length nodes /\
  Forall2 (fun n n' => same_picture n n' /\ fixed n' = fixed n /\
                       (fixed n = true -> n' = n))
          nodes (apply_forces cfg sqrt nodes).
Proof.
  pose proof (apply_forces_moves nodes) as Hall.
  split; [|done]. symmetry. by eapply Forall2_length.
Qed.

Lemma shrink_same_place n n' : shrink cfg n = Some n' -> same_place n n'.
Proof.
  unfold shrink. destruct (_ <=? _)%F; [|discriminate].
  intros [= <-]. by repeat split.
Qed.

Lemma same_place_trans (a b c : node F) :
  same_place a b -> same_place b c -> same_place a c.
Proof. unfold same_place. intuition congruence. Qed.

Lemma rtc_shrink_same_place l l' :
  rtc (shrink_step cfg) l l' -> Forall2 same_place l l'.
Proof.
  revert l'. apply rtc_ind_r.
  - apply Forall2_diag. intros a. by repeat split.
  - intros l1 l2 _ Hs IH. destruct Hs as [l1 k n n' Hk Hs].
    apply Forall2_insert_right; [done|].
    intros a b Ha Hb. assert (b = n) as -> by congruence.
    eapply same_place_trans; [|by apply shrink_same_place].
    by eapply (Forall2_lookup_lr _ _ _ _ _ _ IH).
Qed.

(** X6: a sweep of the rescaler keeps the nodes in order and changes
    neither a picture, nor a position, nor a flag. *)
Theorem attempt_rescale_frame (nodes : list (node F)) :
  length (fst (attempt_rescale cfg nodes)) = length nodes /\
  Forall2 same_place nodes (fst (attempt_rescale cfg nodes)).
Proof.
  pose proof (rtc_shrink_same_place _ _ (attempt_rescale_rtc cfg nodes)) as Hall.
  split; [|done]. symmetry. by eapply Forall2_length.
Qed.

(** *** Sweeps of the rescaler that change nothing *)

Lemma rescale_pair_quiet l changed i j n1 n2 :
  l !! i = Some n1 -> l !! j = Some n2 ->
  (quiet_pair cfg n1 n2 /\ rescale_pair cfg (l, changed) i j = (l, changed)) \/
  (~ quiet_pair cfg n1 n2 /\ snd (rescale_pair cfg (l, changed) i j) = true).
Proof.
  intros Hi Hj. unfold rescale_pair, quiet_pair. cbn [fst]. rewrite Hi, Hj.
  destruct (boxes_overlap cfg (bounding_box n1) (bounding_box n2)).
  - destruct (shrink cfg _) as [n'|] eqn:Hs.
    + right. split; [|done]. intros Hq. specialize (Hq eq_refl). congruence.
    + left. by split.
  - left. by split.
Qed.

Lemma rescale_pairs_flag pairs st :
  snd st = true -> snd (rescale_pairs cfg pairs st) = true.
Proof.
  revert st. induction pairs as [|[i j] pairs IH]; intros st Hst; [done|].
  simpl. apply IH.
  destruct (rescale_pair_cases cfg st i j) as [->|(k & n & n' & _ & _ & _ & ->)];
    done.
Qed.

Lemma rescale_pairs_false pairs st :
  snd (rescale_pairs cfg pairs st) = false -> rescale_pairs cfg pairs st = st.
Proof.
  revert st. induction pairs as [|[i j] pairs IH]; intros st Hf; [done|].
  simpl in *. rewrite (IH _ Hf) in Hf |- *.
  destruct (rescale_pair_cases cfg st i j) as [->|(k & n & n' & _ & _ & _ & Hr)];
    [done|].
  rewrite Hr in Hf. discriminate.
Qed.

Lemma attempt_rescale_false nodes :
  snd (attempt_rescale cfg nodes) = false ->
  fst (attempt_rescale cfg nodes) = nodes.
Proof.
  rewrite attempt_rescale_pairs. intros Hf.
  by rewrite (rescale_pairs_false _ _ Hf).
Qed.

Lemma rescale_pairs_quiet pairs (nodes : list (node F)) :
  (forall i j, (i, j) ∈ pairs ->
     (i < length nodes)%nat /\ (j < length nodes)%nat) ->
  snd (rescale_pairs cfg pairs (nodes, false)) = false <->
  forall i j n1 n2, (i, j) ∈ pairs ->
    nodes !! i = Some n1 -> nodes !! j = Some n2 -> quiet_pair cfg n1 n2.
Proof.
  induction pairs as [|[i j] pairs IH]; intros Hin.
  - split; [|done]. intros _ i j n1 n2 Hij. by apply elem_of_nil in Hij.
  - destruct (Hin i j) as [Hi Hj]; [left|].
    destruct (nodes !! i) as [n1|] eqn:Hn1.
    2:{ apply lookup_ge_None in Hn1. lia. }
    destruct (nodes !! j) as [n2|] eqn:Hn2.
    2:{ apply lookup_ge_None in Hn2. lia. }
    assert (forall i j, (i, j) ∈ pairs ->
              (i < length nodes)%nat /\ (j < length nodes)%nat) as Hin'.
    { intros i' j' Hij. apply Hin. by right. }
    simpl.
    destruct (rescale_pair_quiet nodes false i j n1 n2 Hn1 Hn2)
      as [[Hq ->]|[Hq Hflag]].
    + rewrite (IH Hin'). split.
      * intros Hall i' j' m1 m2 Hij Hm1 Hm2.
        apply elem_of_cons in Hij as [[= -> ->]|Hij]; [|by eapply Hall].
        assert (m1 = n1) as -> by congruence.
        assert (m2 = n2) as -> by congruence. done.
      * intros Hall i' j' m1 m2 Hij. apply Hall. by right.
    + split.
      * intros Hf. rewrite rescale_pairs_flag in Hf by done. discriminate.
      * intros Hall. exfalso. apply Hq. eapply Hall; [left|done..].
Qed.

(** X7: a sweep of the rescaler returns [False] exactly when every pair
    [i < j] is quiet, that is when its boxes are apart or the node that
    would be shrunk is at its floor; and the list is then left as it
    was. *)
Theorem attempt_rescale_quiet (nodes : list (node F)) :
  (snd (attempt_rescale cfg nodes) = false <->
   forall i j n1 n2, (i < j)%nat ->
     nodes !! i = Some n1 -> nodes !! j = Some n2 -> quiet_pair cfg n1 n2) /\
  (snd (attempt_rescale cfg nodes) = false ->
   fst (attempt_rescale cfg nodes) = nodes).
Proof.
  split; [|apply attempt_rescale_false].
  rewrite attempt_rescale_pairs, rescale_pairs_quiet.
  2:{ intros i j Hij. apply elem_of_unordered_pairs in Hij. lia. }
  split.
  - intros Hall i j n1 n2 Hij Hn1 Hn2. eapply Hall; [|done..].
    apply elem_of_unordered_pairs. apply lookup_lt_Some in Hn2. lia.
  - intros Hall i j n1 n2 Hij. apply Hall.
    apply elem_of_unordered_pairs in Hij. lia.
Qed.

(** X8: once a sweep of the rescaler changes nothing, a larger budget of
    attempts gives the same layout. *)
Theorem rescale_attempts_settled (k m : nat) (nodes : list (node F)) :
  snd (attempt_rescale cfg (rescale_attempts cfg k nodes)) = false ->
  (k <= m)%nat ->
  rescale_attempts cfg m nodes = rescale_attempts cfg k nodes.
Proof.
  revert m nodes. induction k as [|k IH]; intros m nodes Hf Hkm.
  - simpl in *. destruct m as [|m]; [done|]. simpl.
    pose proof (attempt_rescale_false nodes Hf) as Hsame.
    destruct (attempt_rescale cfg nodes) as [nodes' changed].
    simpl in *. by subst.
  - destruct m as [|m]; [lia|]. simpl in *.
    destruct (attempt_rescale cfg nodes) as [nodes' changed].
    destruct changed; [|done]. apply IH; [done|lia].
Qed.

(** *** The relaxation as a whole *)

Lemma same_identity_trans (a b c : node F) :
  same_identity a b -> same_identity b c -> same_identity a c.
Proof. unfold same_identity. intuition congruence. Qed.

Lemma relax_identity nodes iteration :
  Forall2 same_identity nodes (relax cfg sqrt nodes iteration).
Proof.
  unfold relax.
  assert (Forall2 same_identity nodes (apply_forces cfg sqrt nodes)) as Hf.
  { eapply Forall2_impl; [apply apply_forces_moves|].
    intros n n' ((Hi & How & Hoh & _) & Hfix & _). by repeat split. }
  destruct (_ =? _); [|done].
  eapply Forall2_trans; [apply same_identity_trans|exact Hf|].
  eapply Forall2_impl; [apply rtc_shrink_same_place, rescale_attempts_rtc|].
  intros n n' (Hi & How & Hoh & Hfix & _). by repeat split.
Qed.

Lemma run_relaxation_identity nodes :
  Forall2 same_identity nodes (run_relaxation cfg sqrt nodes).
Proof.
  unfold run_relaxation.
  generalize (seq 0 (Z.to_nat (RELAXATION_ITERATIONS cfg))) as its.
  intros its.
  assert (Forall2 same_identity nodes nodes) as Hall.
  { apply Forall2_diag. intros a. by repeat split. }
  revert Hall. generalize nodes at 2 4 as cur. intros cur. revert cur.
  induction its as [|it its IH]; intros cur Hall; [done|].
  simpl. apply IH.
  eapply Forall2_trans; [apply same_identity_trans|exact Hall|].
  apply relax_identity.
Qed.

(** X9: the relaxation neither adds, nor drops, nor reorders a node, and
    it changes neither a picture, nor an original size, nor a flag. *)
Theorem run_relaxation_frame (nodes : list (node F)) :
  length (run_relaxation cfg sqrt nodes) = length nodes /\
  Forall2 same_identity nodes (run_relaxation cfg sqrt nodes).
Proof.
  pose proof (run_relaxation_identity nodes) as Hall.
  split; [|done]. symmetry. by eapply Forall2_length.
Qed.

Lemma relax_lone (a : node F) iteration :
  fixed a = true -> relax cfg sqrt [a] iteration = [a].
Proof.
  intros Hf. unfold relax.
  assert (apply_forces cfg sqrt [a] = [a]) as ->.
  { unfold apply_forces, apply_forces_at. simpl. by rewrite Hf. }
  destruct (_ =? _); [|done].
  by destruct (Z.to_nat (MAX_RESCALE_ATTEMPTS cfg)).
Qed.

(** X10: a layout of one picture is placed at the canvas center and the
    relaxation leaves it exactly as placed. *)
Theorem lone_picture_stays (n : node F) :
  exists a,
    place_initial cfg cos sin pi [n] = Ok [a] /\
    x a = of_Z (fst (CENTER cfg)) /\ y a = of_Z (snd (CENTER cfg)) /\
    width a = width n /\ height a = height n /\
    run_relaxation cfg sqrt [a] = [a].
Proof.
  eexists. split; [reflexivity|]. repeat split.
  unfold run_relaxation.
  generalize (seq 0 (Z.to_nat (RELAXATION_ITERATIONS cfg))) as its.
  induction its as [|it its IH]; [done|].
  simpl. by rewrite relax_lone.
Qed.

(** *** The picture that is composed *)



Lemma compose_final_image_pasted nodes picture :
  compose_final_image cfg nodes = Ok picture ->
  nodes <> [] /\
  map (fun p => fst (fst p)) (pasted picture) = map image nodes /\
  map (fun p => snd (fst p)) (pasted picture)
    = map (fun n => (width n, height n)) nodes.
Proof.
  unfold compose_final_image.
  destruct (fold_left extend nodes None) as [[[[min_x min_y] max_x] max_y]|]
    eqn:Hext; [|discriminate].
  assert (nodes <> []) as Hne.
  { intros ->. discriminate. }
  intros Hc. apply bind_Ok in Hc as (sw & _ & Hc).
  apply bind_Ok in Hc as (sh & _ & Hc).
  split; [done|].
  destruct (_ <? _)%F; injection Hc as <-; simpl; by rewrite !map_map.
Qed.


(** *** The trials of the main block *)

Lemma generate_name (world : World F) paths count trial out :
  generate cfg sqrt cos sin pi world paths count trial = Ok out ->
  fst out = output_name cfg count trial.
Proof.
  unfold generate. intros Hg.
  repeat (apply bind_Ok in Hg as (? & _ & Hg)). by injection Hg as <-.
Qed.

Lemma trials_outputs (world : World F) paths count todo saved :
  exists k news,
    (k <= length todo)%nat /\
    fst (trials cfg sqrt cos sin pi world paths count todo saved)
      = saved ++ news /\
    Forall2 (fun trial out =>
               generate cfg sqrt cos sin pi world paths count trial = Ok out)
            (take k todo) news /\
    match snd (trials cfg sqrt cos sin pi world paths count todo saved) with
    | Ok _ => k = length todo
    | Raise e =>
        exists trial, todo !! k = Some trial /\
          generate cfg sqrt cos sin pi world paths count trial = Raise e
    end.
Proof.
  revert saved. induction todo as [|trial todo IH]; intros saved.
  - exists 0%nat, []. simpl. rewrite app_nil_r. repeat split; constructor.
  - simpl.
    destruct (generate cfg sqrt cos sin pi world paths count trial)
      as [out|e] eqn:Hg.
    + destruct (IH (saved ++ [out])) as (k & news & Hk & Hout & Hall & Hend).
      exists (S k), (out :: news). split; [lia|]. split.
      { rewrite Hout, <- app_assoc. done. }
      split; [by constructor|]. destruct (snd _); [lia|done].
    + exists 0%nat, []. simpl. rewrite app_nil_r.
      split; [lia|]. split; [done|]. split; [constructor|]. by exists trial.
Qed.

(** X12: when the directory can be listed, the files written by the main
    block are the results of the first [k] trials, in order, under the
    names of these trials; [k] is the number of trials when the run ends
    normally, and otherwise trial [k] is the first one that raises, its
    exception ends the run, and no later trial is run. *)
Theorem main_outputs (world : World F) names :
  listdir world = Ok names ->
  exists k,
    Forall2 (fun trial out =>
               generate cfg sqrt cos sin pi world (image_paths_of names)
                        (trial_count cfg) trial = Ok out)
            (seq 0 k) (fst (main cfg sqrt cos sin pi world)) /\
    map fst (fst (main cfg sqrt cos sin pi world))
      = map (output_name cfg (trial_count cfg)) (seq 0 k) /\
    match snd (main cfg sqrt cos sin pi world) with
    | Ok _ => k = Z.to_nat (trial_count cfg)
    | Raise e =>
        (k < Z.to_nat (trial_count cfg))%nat /\
        generate cfg sqrt cos sin pi world (image_paths_of names)
                 (trial_count cfg) k = Raise e
    end.
Proof.
  intros Hl. unfold main. rewrite Hl.
  fold (image_paths_of names). fold (trial_count cfg).
  destruct (trials_outputs world (image_paths_of names) (trial_count cfg)
              (seq 0 (Z.to_nat (trial_count cfg))) [])
    as (k & news & Hk & Hout & Hall & Hend).
  rewrite length_seq in Hk. rewrite take_seq, Nat.min_l in Hall by done.
  simpl in Hout. exists k. rewrite Hout. split; [done|]. split.
  - clear -Hall. induction Hall as [|trial out ts outs Hg _ IH]; [done|].
    simpl. f_equal; [by eapply generate_name|done].
  - destruct (snd _) as [|e]; [by rewrite length_seq in Hend|].
    destruct Hend as (trial & Ht & Hg).
    apply lookup_seq in Ht as [-> Hlt]. done.
Qed.

(** *** The names of the files *)

Lemma string_length_append (s t : string) :
  String.length (s ++ t) = (String.length s + String.length t)%nat.
Proof. induction s as [|c s IH]; simpl; [done|]. by rewrite IH. Qed.

Lemma string_app_inv_head (s t1 t2 : string) :
  (s ++ t1 = s ++ t2)%string -> t1 = t2.
Proof. induction s as [|c s IH]; simpl; [done|]. intros [= Heq]. auto. Qed.

Lemma string_app_inv_tail (s1 s2 t : string) :
  (s1 ++ t = s2 ++ t)%string -> s1 = s2.
Proof.
  revert s2. induction s1 as [|c s1 IH]; intros [|d s2]; simpl; intros Heq.
  - done.
  - apply (f_equal String.length) in Heq. simpl in Heq.
    rewrite string_length_append in Heq. lia.
  - apply (f_equal String.length) in Heq. simpl in Heq.
    rewrite string_length_append in Heq. lia.
  - injection Heq as -> Heq. f_equal. by apply IH.
Qed.

Lemma digits_inj (n m : nat) :
  NilEmpty.string_of_uint (Nat.to_uint n)
    = NilEmpty.string_of_uint (Nat.to_uint m) -> n = m.
Proof.
  intros Heq. apply (f_equal NilEmpty.uint_of_string) in Heq.
  rewrite !NilEmpty.usu in Heq. injection Heq as Heq.
  apply (f_equal Nat.of_uint) in Heq.
  by rewrite !DecimalNat.Unsigned.of_to in Heq.
Qed.

Lemma output_name_inj count (t1 t2 : nat) :
  1 < count ->
  output_name cfg count t1 = output_name cfg count t2 -> t1 = t2.
Proof.
  intros Hc. unfold output_name. rewrite (proj2 (Z.ltb_lt 1 count)) by done.
  change (replace_pound OUTPUT_FILE ?new)
    with ("collage-" ++ (new ++ ".png"))%string.
  intros Heq. apply string_app_inv_head, string_app_inv_tail in Heq.
  apply string_app_inv_head, digits_inj in Heq. lia.
Qed.

Lemma output_names_NoDup count k :
  (k <= Z.to_nat count)%nat ->
  NoDup (map (output_name cfg count) (seq 0 k)).
Proof.
  intros Hk. destruct (decide (1 < count)) as [Hc|Hc].
  - apply NoDup_fmap_2_strong; [|apply NoDup_seq].
    intros t1 t2 _ _. by apply output_name_inj.
  - destruct k as [|[|k]]; [constructor|by apply NoDup_singleton|lia].
Qed.

(** X13: no two files written in a run have the same name. *)
Theorem main_output_names_distinct (world : World F) :
  NoDup (map fst (fst (main cfg sqrt cos sin pi world))).
Proof.
  unfold main. destruct (listdir world) as [names|e]; [|constructor].
  fold (image_paths_of names). fold (trial_count cfg).
  destruct (trials_outputs world (image_paths_of names) (trial_count cfg)
              (seq 0 (Z.to_nat (trial_count cfg))) [])
    as (k & news & Hk & Hout & Hall & _).
  rewrite length_seq in Hk. rewrite take_seq, Nat.min_l in Hall by done.
  simpl in Hout. rewrite Hout.
  assert (map fst news = map (output_name cfg (trial_count cfg)) (seq 0 k))
    as ->.
  { clear -Hall. induction Hall as [|trial out ts outs Hg _ IH]; [done|].
    simpl. f_equal; [by eapply generate_name|done]. }
  by apply output_names_NoDup.
Qed.

(** *** Every picture, once *)

Lemma Forall2_images (R : node F -> node F -> Prop) l l' :
  (forall n n', R n n' -> image n' = image n) ->
  Forall2 R l l' -> map image l' = map image l.
Proof.
  intros HR. induction 1 as [|n n' l l' Hn _ IH]; [done|].
  simpl. by rewrite (HR _ _ Hn), IH.
Qed.

Lemma load_images_images (decode : string -> result (Z * Z)) paths nodes :
  load_images decode paths = Ok nodes -> map image nodes = paths.
Proof.
  intros Hl. apply mapM_Ok_Forall2 in Hl.
  induction Hl as [|path n paths nodes Hn _ IH]; [done|].
  apply bind_Ok in Hn as (wh & _ & Hn). injection Hn as <-.
  simpl. by rewrite IH.
Qed.

Lemma initial_rescale_images nodes nodes' :
  initial_rescale cfg nodes = Ok nodes' -> map image nodes' = map image nodes.
Proof.
  intros Hr. apply mapM_Ok_Forall2 in Hr.
  eapply Forall2_images; [|exact Hr]. intros n n'.
  unfold initial_rescale_node. destruct (_ || _).
  - intros Hb. apply bind_Ok in Hb as (sw & _ & Hb).
    apply bind_Ok in Hb as (sh & _ & Hb). by injection Hb as <-.
  - by intros [= <-].
Qed.

Lemma place_initial_images nodes placed :
  place_initial cfg cos sin pi nodes = Ok placed ->
  map image placed = map image nodes.
Proof.
  intros Hp. apply place_initial_pictures in Hp.
  eapply Forall2_images; [|exact Hp]. by intros n n' [? _].
Qed.

Lemma generate_pastes (world : World F) paths count trial out :
  (forall t l, sample world t l ≡ₚ l) ->
  generate cfg sqrt cos sin pi world paths count trial = Ok out ->
  map (fun p => fst (fst p)) (pasted (snd out)) ≡ₚ paths.
Proof.
  intros Hsample. unfold generate. intros Hg.
  apply bind_Ok in Hg as (loaded & Hload & Hg).
  apply bind_Ok in Hg as (scaled & Hscale & Hg).
  apply bind_Ok in Hg as (placed & Hplace & Hg).
  apply bind_Ok in Hg as (picture & Hpic & Hg).
  apply bind_Ok in Hg as (? & _ & Hg). injection Hg as <-. simpl.
  apply compose_final_image_pasted in Hpic as (_ & -> & _).
  rewrite (Forall2_images same_identity _ _
             (fun n n' Hs => proj1 Hs) (run_relaxation_identity placed)).
  rewrite (place_initial_images _ _ Hplace).
  rewrite (reorder_perm cfg world trial scaled Hsample).
  rewrite (initial_rescale_images _ _ Hscale).
  by rewrite (load_images_images _ _ _ Hload).
Qed.

(** X14: every file written by the main block shows every picture of the
    directory exactly once, whatever order the trial draws. *)
Theorem every_picture_once (world : World F) names out :
  (forall t l, sample world t l ≡ₚ l) ->
  listdir world = Ok names ->
  out ∈ fst (main cfg sqrt cos sin pi world) ->
  map (fun p => fst (fst p)) (pasted (snd out)) ≡ₚ image_paths_of names.
Proof.
  intros Hsample Hl. unfold main. rewrite Hl.
  fold (image_paths_of names). fold (trial_count cfg).
  destruct (trials_outputs world (image_paths_of names) (trial_count cfg)
              (seq 0 (Z.to_nat (trial_count cfg))) [])
    as (k & news & _ & Hout & Hall & _).
  simpl in Hout. rewrite Hout. intros Hin.
  apply list_elem_of_lookup in Hin as [i Hi].
  destruct (Forall2_lookup_r _ _ _ _ _ Hall Hi) as (trial & _ & Hg).
  by eapply generate_pastes.
Qed.

(** *** The files that are taken as pictures *)

Lemma substring_all (s : string) : substring 0 (String.length s) s = s.
Proof. induction s as [|c s IH]; simpl; [done|]. by rewrite IH. Qed.

Lemma substring_suffix (stem suffix : string) :
  substring (String.length stem) (String.length suffix) (stem ++ suffix)
  = suffix.
Proof. induction stem as [|c stem IH]; simpl; [apply substring_all|done]. Qed.

Lemma substring_split (s : string) (n : nat) :
  (n <= String.length s)%nat ->
  (substring 0 n s ++ substring n (String.length s - n) s)%string = s.
Proof.
  revert n. induction s as [|c s IH]; intros n Hn; simpl in Hn.
  - by destruct n.
  - destruct n as [|n].
    + simpl. by rewrite substring_all.
    + simpl. f_equal. apply IH. lia.
Qed.

Lemma endswith_spec (s suffix : string) :
  endswith s suffix = true <-> exists stem, s = (stem ++ suffix)%string.
Proof.
  unfold endswith. rewrite andb_true_iff, Nat.leb_le, String.eqb_eq. split.
  - intros [Hle Hsub].
    exists (substring 0 (String.length s - String.length suffix) s).
    pose proof (substring_split s (String.length s - String.length suffix))
      as Hsplit.
    replace (String.length s - (String.length s - String.length suffix))%nat
      with (String.length suffix) in Hsplit by lia.
    rewrite Hsub in Hsplit. symmetry. apply Hsplit. lia.
  - intros [stem ->]. rewrite string_length_append. split; [lia|].
    replace (String.length stem + String.length suffix
             - String.length suffix)%nat
      with (String.length stem) by lia.
    apply substring_suffix.
Qed.

(** X15: a file of the directory is taken as a picture exactly when its
    name, put in lower case, ends in [.png], [.jpg] or [.jpeg]. *)
Theorem is_image_name_spec (f : string) :
  is_image_name f = true <->
  exists stem,
    lower f = (stem ++ ".png")%string \/ lower f = (stem ++ ".jpg")%string \/
    lower f = (stem ++ ".jpeg")%string.
Proof.
  unfold is_image_name. rewrite !orb_true_iff, !endswith_spec. split.
  - intros [[[stem Hs]|[stem Hs]]|[stem Hs]]; exists stem; auto.
  - intros [stem [Hs|[Hs|Hs]]]; [left; left|left; right|right]; by exists stem.
Qed.

(** *** The orders *)

Lemma insert_desc_sorted key (n : node F) l :
  StronglySorted (fun a b => key b <= key a) l ->
  StronglySorted (fun a b => key b <= key a) (insert_desc key n l).
Proof.
  induction 1 as [|m l Hl IH Hm]; simpl.
  - repeat constructor.
  - destruct (key m <=? key n) eqn:Hk.
    + apply Z.leb_le in Hk. constructor; [by constructor|].
      constructor; [done|]. eapply Forall_impl; [exact Hm|].
      intros b Hb. simpl in Hb. lia.
    + apply Z.leb_gt in Hk. constructor; [done|].
      rewrite insert_desc_perm. constructor; [lia|done].
Qed.

Lemma sorted_desc_sorted key (nodes : list (node F)) :
  StronglySorted (fun a b => key b <= key a) (sorted_desc key nodes).
Proof.
  induction nodes as [|n nodes IH]; simpl; [constructor|].
  by apply insert_desc_sorted.
Qed.

(** X16: [sort_by_area], [sort_by_width] and [sort_by_height] return the
    nodes they are given, each once, with the keys in descending
    order. *)
Theorem sorts_are_descending (nodes : list (node F)) :
  (sort_by_area nodes ≡ₚ nodes /\
   StronglySorted (fun a b => width b * height b <= width a * height a)
                  (sort_by_area nodes)) /\
  (sort_by_width nodes ≡ₚ nodes /\
   StronglySorted (fun a b => width b <= width a) (sort_by_width nodes)) /\
  (sort_by_height nodes ≡ₚ nodes /\
   StronglySorted (fun a b => height b <= height a) (sort_by_height nodes)).
Proof.
  unfold sort_by_area, sort_by_width, sort_by_height.
  repeat split; try apply sorted_desc_perm.
  - apply (sorted_desc_sorted (fun n => width n * height n)).
  - apply (sorted_desc_sorted (fun n => width n)).
  - apply (sorted_desc_sorted (fun n => height n)).
Qed.

Lemma insert_desc_filter key (k : Z) (n : node F) l :
  filter (fun m => key m = k) (insert_desc key n l)
  = filter (fun m => key m = k) (n :: l).
Proof.
  induction l as [|m l IH]; simpl; [done|].
  destruct (key m <=? key n) eqn:Hk; [done|]. apply Z.leb_gt in Hk.
  rewrite !filter_cons in *.
  destruct (decide (key m = k)) as [Hm|Hm], (decide (key n = k)) as [Hn|Hn];
    try lia; by rewrite IH.
Qed.

(** X17: the three sorts are stable: the nodes that have the same key
    come out in the order in which they went in. *)
Theorem sorts_are_stable (nodes : list (node F)) (k : Z) :
  filter (fun n => width n * height n = k) (sort_by_area nodes)
    = filter (fun n => width n * height n = k) nodes /\
  filter (fun n => width n = k) (sort_by_width nodes)
    = filter (fun n => width n = k) nodes /\
  filter (fun n => height n = k) (sort_by_height nodes)
    = filter (fun n => height n = k) nodes.
Proof.
  assert (forall key, filter (fun n : node F => key n = k) (sorted_desc key nodes)
                      = filter (fun n => key n = k) nodes) as Hgen.
  { intros key. induction nodes as [|n nodes IH]; simpl; [done|].
    rewrite insert_desc_filter, !filter_cons, IH. done. }
  unfold sort_by_area, sort_by_width, sort_by_height.
  repeat split; apply Hgen.
Qed.
End MoreControl.

(** ** Further numeric properties, on exact rationals *)

Section MoreExact.
Variable cfg : Config Q.
Variable sqrt : Q -> Q.





(** *** The length of a move *)







(** *** Where the pictures are pasted *)




End MoreExact.

(** ** The further properties at concrete inputs *)

(** The rescaler on [three_in_a_row] has settled within 16 attempts. *)
Lemma rescale_attempts_settled_witness :
  snd (attempt_rescale float_config
         (rescale_attempts float_config 16 three_in_a_row)) = false /\
  rescale_attempts float_config 20 three_in_a_row
  = rescale_attempts float_config 16 three_in_a_row.
Proof.
  assert (snd (attempt_rescale float_config
                 (rescale_attempts float_config 16 three_in_a_row)) = false)
    as Hf by (vm_compute; reflexivity).
  split; [exact Hf|].
  apply (rescale_attempts_settled float_config 16 20 three_in_a_row Hf). lia.
Defined.

(** The files of a run on [one_picture]. *)
Lemma main_outputs_witness :
  exists k,
    map fst (fst (main short_config PrimFloat.sqrt series_cos series_sin
                       decimal_pi one_picture))
    = map (output_name short_config (trial_count short_config)) (seq 0 k).
Proof.
  destruct (main_outputs short_config PrimFloat.sqrt series_cos series_sin
              decimal_pi one_picture ["wide.PNG"; "notes.txt"]%string eq_refl)
    as (k & _ & Hnames & _).
  exists k. exact Hnames.
Defined.

(** The first file of a run on [one_picture] shows the one picture. *)
Lemma every_picture_once_witness :
  map (fun p => fst (fst p)) (pasted (snd first_output))
  ≡ₚ image_paths_of ["wide.PNG"; "notes.txt"]%string.
Proof.
  apply (every_picture_once short_config PrimFloat.sqrt series_cos series_sin
           decimal_pi one_picture ["wide.PNG"; "notes.txt"]%string first_output).
  - intros t l. reflexivity.
  - reflexivity.
  - apply list_elem_of_lookup. exists 0%nat. vm_compute. reflexivity.
Defined.



